(** * zerolog's log/slog handler: a shallow embedding

    The development follows the two adapter files of the repository:
    [slog.go] of package [zerolog] ([SlogHandler]) and [zslog/slog.go]
    ([zslog.Handler]).  Go values are embedded as follows:

    - [slog.Level] (a Go [int]) is a [Z]; only comparisons are performed on it;
    - a [[]byte] is a [list byte], a Go [string] a [string];
    - an interface value ([any]) is a record of its dynamic type and of the
      methods of the interfaces the adapter asserts on;
    - [*SlogHandler] and [*SlogHandlerOptions] are addresses into a store. *)

From Stdlib Require Import ZArith List Strings.String Strings.Byte Bool Lia Arith.
From Stdlib Require Import DecimalString FunctionalExtensionality.
From Equations Require Import Equations.
Import Equations.Prop.Logic.
Import ListNotations.
Local Open Scope Z_scope.
Local Open Scope string_scope.
Local Open Scope list_scope.
Set Warnings "-register-all".

(** ** Package [net]: the three concrete types the dispatcher asserts on *)

Module net.

Definition IP := list byte.

Record IPNet := mkIPNet { IPNet_IP : IP; IPNet_Mask : list byte }.

Definition HardwareAddr := list byte.

End net.

(** ** Go interface values *)

(** [error]: what [Error()] returns. *)
Definition error := string.

(** The dynamic (concrete) type of an interface value, as far as the type
    switch of [mapAttrAny] can tell concrete types apart. *)
Inductive DynType :=
| DynIP (v : net.IP)
| DynIPNet (v : net.IPNet)
| DynHardwareAddr (v : net.HardwareAddr)
| DynOther.

(** A value of static type [any].  A field [asX] is [Some r] exactly when the
    value satisfies the interface X, and [r] is then what the interface's
    method returns: [Error()] for [error], [String()] for [fmt.Stringer],
    [MarshalJSON()] for [json.Marshaler], [MarshalText()] for
    [encoding.TextMarshaler].  The two marshalers return a pair
    [([]byte, error)], a nil error being [None]. *)
Record any := mkAny {
  typeName : string;
  dynType : DynType;
  asError : option error;
  asStringer : option string;
  asJSONMarshaler : option (list byte * option error);
  asTextMarshaler : option (list byte * option error)
}.

(** ** Package [fmt] *)

(** [fmt.Sprintf] at the format of a source position, a file name, a colon
    and a line number in decimal. *)
Definition Sprintf_s_d (file : string) (line : Z) : string :=
  (file ++ ":" ++ NilZero.string_of_int (Z.to_int line))%string.

(** ** Package [log/slog] (standard library, consumed by the adapter) *)

Module slog.

(** [type Level int], with the four named levels. *)
Definition Level := Z.
Definition LevelDebug : Level := -4.
Definition LevelInfo : Level := 0.
Definition LevelWarn : Level := 4.
Definition LevelError : Level := 8.

Inductive Kind :=
| KindAny | KindBool | KindDuration | KindFloat64 | KindInt64
| KindString | KindTime | KindUint64 | KindGroup | KindLogValuer.

(** [slog.Value] is a tagged union.  A value of kind [KindLogValuer] holds
    an [any] whose dynamic type has a [LogValue()] method; [lv] is the
    holder and [next] what its [LogValue()] returns.  A [time.Duration] is
    its int64 count of nanoseconds, a [time.Time] its instant in
    nanoseconds, a [float64] its IEEE-754 bit pattern. *)
Inductive Value :=
| BoolValue (b : bool)
| DurationValue (d : Z)
| Float64Value (f : Z)
| Int64Value (i : Z)
| StringValue (s : string)
| TimeValue (t : Z)
| Uint64Value (u : Z)
| GroupValue (g : list Attr)
| LogValuerValue (lv : any) (next : Value)
| AnyValue (v : any)
with Attr :=
| mkAttr (key : string) (value : Value).

Definition Key (a : Attr) : string := let 'mkAttr k _ := a in k.
Definition AttrValue (a : Attr) : Value := let 'mkAttr _ v := a in v.

Definition ValueKind (v : Value) : Kind :=
  match v with
  | BoolValue _ => KindBool
  | DurationValue _ => KindDuration
  | Float64Value _ => KindFloat64
  | Int64Value _ => KindInt64
  | StringValue _ => KindString
  | TimeValue _ => KindTime
  | Uint64Value _ => KindUint64
  | GroupValue _ => KindGroup
  | LogValuerValue _ _ => KindLogValuer
  | AnyValue _ => KindAny
  end.

(** [Value.Any]: the value as an [any].  Only the two kinds that hold an
    interface value matter to the adapter; a scalar boxed into an [any] has
    none of the probed methods. *)
Definition boxed (name : string) : any :=
  mkAny name DynOther None None None None.

Definition Any (v : Value) : any :=
  match v with
  | AnyValue x => x
  | LogValuerValue x _ => x
  | BoolValue _ => boxed "bool"
  | DurationValue _ => boxed "time.Duration"
  | Float64Value _ => boxed "float64"
  | Int64Value _ => boxed "int64"
  | StringValue _ => boxed "string"
  | TimeValue _ => boxed "time.Time"
  | Uint64Value _ => boxed "uint64"
  | GroupValue _ => boxed "[]slog.Attr"
  end.

(** [Value.Resolve]: call [LogValue] while the value is a [LogValuer], at
    most [maxLogValues] times; past that, the result is an error value
    naming the type of the original holder. *)
Definition maxLogValues : nat := 100.

Definition tooManyLogValues (orig : Value) : Value :=
  let msg := ("LogValue called too many times on Value of type "
                ++ typeName (Any orig))%string in
  AnyValue (mkAny "*errors.errorString" DynOther (Some msg) None None None).

Fixpoint resolveLoop (i : nat) (orig v : Value) : Value :=
  match i with
  | O => tooManyLogValues orig
  | S i' =>
      match v with
      | LogValuerValue _ next => resolveLoop i' orig next
      | _ => v
      end
  end.

Definition Resolve (v : Value) : Value := resolveLoop maxLogValues v v.

(** [slog.Record]; [Attrs] calls [f] on each attribute, in order, until
    [f] returns false.  [f] is a closure over the state [S] it mutates. *)
Record Record_ := mkRecord {
  Time : Z;
  Message : string;
  RecLevel : Level;
  PC : Z;
  attrs : list Attr
}.

Fixpoint rangeAttrs {S : Type} (f : Attr -> S -> S * bool)
         (l : list Attr) (s : S) : S :=
  match l with
  | [] => s
  | a :: rest =>
      let (s', more) := f a s in
      if more then rangeAttrs f rest s' else s'
  end.

Definition Attrs {S : Type} (r : Record_) (f : Attr -> S -> S * bool)
  : S -> S := rangeAttrs f (attrs r).

(** [NewRecord] and [Record.AddAttrs]; the latter omits empty groups. *)
Definition NewRecord (t : Z) (level : Level) (msg : string) (pc : Z)
  : Record_ := mkRecord t msg level pc [].

Definition isEmptyGroup (v : Value) : bool :=
  match v with
  | GroupValue [] => true
  | _ => false
  end.

Definition AddAttrs (r : Record_) (a : list Attr) : Record_ :=
  mkRecord (Time r) (Message r) (RecLevel r) (PC r)
           (attrs r ++ filter (fun x => negb (isEmptyGroup (AttrValue x))) a).

(** Sizes, for the recursion of the dispatcher over groups. *)
Fixpoint Value_size (v : Value) : nat :=
  match v with
  | GroupValue g =>
      S ((fix sum (l : list Attr) : nat :=
            match l with
            | [] => O
            | a :: rest => (S (Attr_size a) + sum rest)%nat
            end) g)
  | LogValuerValue _ next => S (Value_size next)
  | _ => 1%nat
  end
with Attr_size (a : Attr) : nat :=
  match a with
  | mkAttr _ v => S (Value_size v)
  end.

Fixpoint Attrs_size (l : list Attr) : nat :=
  match l with
  | [] => O
  | a :: rest => (S (Attr_size a) + Attrs_size rest)%nat
  end.

(** Termination of the dispatcher: the children of the group a value
    resolves to are smaller than the value. *)
Ltac resolved_group_smaller v Hv :=
  let Hs := fresh "Hs" in
  assert (Hs : forall i o x,
             (Value_size (resolveLoop i o x) <= Value_size x)%nat)
    by (let i := fresh "i" in
        let IH := fresh "IH" in
        let o := fresh "o" in
        let x := fresh "x" in
        induction i as [|i IH]; intros o x;
        [ destruct x; simpl; lia
        | destruct x; try (simpl; lia);
          match goal with
          | |- (Value_size (resolveLoop (S i) o (LogValuerValue _ ?n)) <= _)%nat =>
              specialize (IH o n); simpl in *; lia
          end ]);
  specialize (Hs maxLogValues v v);
  change (resolveLoop maxLogValues v v) with (Resolve v) in Hs;
  rewrite Hv in Hs;
  change (Value_size (GroupValue ?g)) with (S (Attrs_size g)) in Hs;
  lia.

End slog.

(** ** The store

    [*SlogHandler] and [*SlogHandlerOptions] are addresses of cells of a
    store; the store also holds what the sinks have received, oldest first,
    each record with the sink it went to.  A method is a computation over
    the store that fails ([None]) on a nil or dangling address, as the Go
    code panics there. *)

Module store.

Definition ptr := nat.

Record Store (H O E : Type) := mkStore {
  handlers : list H;
  options : list O;
  output : list (nat * E)
}.
Arguments mkStore {H O E}.
Arguments handlers {H O E}.
Arguments options {H O E}.
Arguments output {H O E}.

Section Monad.
Context {H O E : Type}.

Definition M (A : Type) : Type := Store H O E -> option (A * Store H O E).

Definition ret {A} (a : A) : M A := fun s => Some (a, s).

Definition bind {A B} (m : M A) (k : A -> M B) : M B :=
  fun s => match m s with
           | Some (a, s') => k a s'
           | None => None
           end.

Definition loadHandler (p : ptr) : M H :=
  fun s => match nth_error (handlers s) p with
           | Some h => Some (h, s)
           | None => None
           end.

Definition loadOptions (p : ptr) : M O :=
  fun s => match nth_error (options s) p with
           | Some o => Some (o, s)
           | None => None
           end.

Definition newHandler (h : H) : M ptr :=
  fun s => Some (List.length (handlers s),
                 mkStore (handlers s ++ [h]) (options s) (output s)).

Definition newOptions (o : O) : M ptr :=
  fun s => Some (List.length (options s),
                 mkStore (handlers s) (options s ++ [o]) (output s)).

Definition emit (f : list (nat * E) -> list (nat * E)) : M unit :=
  fun s => Some (tt, mkStore (handlers s) (options s) (f (output s))).

End Monad.

Notation "x <- m ;; k" := (bind m (fun x => k))
  (at level 61, m at next level, right associativity).

End store.

Import store.

(** ** Package [zerolog] *)

Module zerolog.

(** *** The core logger

    The adapter is written against zerolog's [Logger], [Context] and
    [*Event].  Their declarations are not part of the adapter files; they
    are modelled here from the specification of the adapter's external
    interface. *)

(** Modelled from the spec: the back-end severity enumeration [Level],
    absent from the adapter files; five levels ordered
    Trace < Debug < Info < Warn < Error. *)
Inductive Level :=
| TraceLevel | DebugLevel | InfoLevel | WarnLevel | ErrorLevel.

(** Modelled from the spec: the order of the back-end levels, absent from
    the adapter files, as the integer each level stands for. *)
Definition Level_int (l : Level) : Z :=
  match l with
  | TraceLevel => -1
  | DebugLevel => 0
  | InfoLevel => 1
  | WarnLevel => 2
  | ErrorLevel => 3
  end.

(** Modelled from the spec: what the field-writing surface of [Context] and
    [*Event] records, absent from the adapter files.  The JSON encoder is
    out of scope; a written field is kept as the write method that produced
    it with its argument, and a closed group as a nested object. *)
Inductive FieldValue :=
| FBool (b : bool)
| FDur (d : Z)
| FFloat64 (f : Z)
| FInt64 (i : Z)
| FStr (s : string)
| FTime (t : Z)
| FUint64 (u : Z)
| FInterface (v : any)
| FAnErr (e : error)
| FStringer (s : string)
| FIPAddr (ip : net.IP)
| FIPPrefix (pfx : net.IPNet)
| FMACAddr (ha : net.HardwareAddr)
| FRawJSON (b : list byte)
| FObject (fields : list (string * FieldValue)).

Definition Field : Type := string * FieldValue.

(** Modelled from the spec: the accumulator shared by [Context] and
    [*Event], absent from the adapter files: the fields written at top
    level, in order, and the stack of currently open groups (innermost
    first), each with its name and the fields written into it so far. *)
Record Builder := mkBuilder {
  top : list Field;
  open : list (string * list Field)
}.

(** Modelled from the spec: a field write, absent from the adapter files;
    the field lands in the innermost open group, at top level when no group
    is open. *)
Definition write (b : Builder) (key : string) (v : FieldValue) : Builder :=
  match open b with
  | [] => mkBuilder (top b ++ [(key, v)]) []
  | (g, fs) :: outer => mkBuilder (top b) ((g, fs ++ [(key, v)]) :: outer)
  end.

(** Modelled from the spec: [openGroup], absent from the adapter files;
    pushes a group of the given name.  Names are not validated. *)
Definition Builder_openGroup (b : Builder) (name : string) : Builder :=
  mkBuilder (top b) ((name, []) :: open b).

(** Modelled from the spec: closing the innermost group, absent from the
    adapter files; the group becomes a nested object of the enclosing
    scope, whatever the number of fields it holds. *)
Definition closeOne (b : Builder) : Builder :=
  match open b with
  | [] => b
  | (g, fs) :: outer => write (mkBuilder (top b) outer) g (FObject fs)
  end.

(** Modelled from the spec: [closeGroup], absent from the adapter files;
    [n = -1] closes all currently open groups, another [n] closes [n]
    levels. *)
Definition Builder_closeGroup (b : Builder) (n : Z) : Builder :=
  if (n =? -1)%Z
  then Nat.iter (List.length (open b)) closeOne b
  else Nat.iter (Z.to_nat n) closeOne b.

(** Modelled from the spec: [Logger], absent from the adapter files: the
    sink it writes to, its configured minimum level and the context bound
    to every event derived from it. *)
Record Logger := mkLogger {
  w : nat;
  level : Level;
  context : Builder
}.

(** Modelled from the spec: [Logger.GetLevel], absent from the adapter
    files; the configured minimum severity. *)
Definition GetLevel (l : Logger) : Level := level l.

(** Modelled from the spec: [Logger.Level], absent from the adapter files;
    the same logger with its minimum level overridden. *)
Definition Logger_Level (l : Logger) (lvl : Level) : Logger :=
  mkLogger (w l) lvl (context l).

(** Modelled from the spec: [Context], absent from the adapter files; an
    immutable value, every write returns a new [Context]. *)
Record Context := mkContext { l : Logger }.

(** Modelled from the spec: [Logger.With], absent from the adapter files;
    the context-builder accessor. *)
Definition With (lg : Logger) : Context := mkContext lg.

(** Modelled from the spec: [Context.Logger], absent from the adapter
    files; the logger carrying the accumulated context. *)
Definition Context_Logger (c : Context) : Logger := l c.

(** Modelled from the spec: a field write on a [Context], absent from the
    adapter files; the result is a new [Context] on the same logger. *)
Definition Context_write (c : Context) (key : string) (v : FieldValue)
  : Context :=
  mkContext (mkLogger (w (l c)) (level (l c)) (write (context (l c)) key v)).

(** Modelled from the spec: [Context.openGroup], absent from the adapter
    files. *)
Definition Context_openGroup (c : Context) (name : string) : Context :=
  mkContext (mkLogger (w (l c)) (level (l c))
                      (Builder_openGroup (context (l c)) name)).

(** Modelled from the spec: [Context.closeGroup], absent from the adapter
    files. *)
Definition Context_closeGroup (c : Context) (n : Z) : Context :=
  mkContext (mkLogger (w (l c)) (level (l c))
                      (Builder_closeGroup (context (l c)) n)).

(** Modelled from the spec: [Context.grouped], absent from the adapter
    files; opens a scope of the given name, runs the writer [f] in it and
    closes the scope. *)
Definition Context_grouped (c : Context) (name : string)
           (f : Context -> Context) : Context :=
  Context_closeGroup (f (Context_openGroup c name)) 1.

(** Modelled from the spec: the pointee of an enabled [*Event], absent from
    the adapter files: the severity it was opened at, the sink of its
    logger and the fields accumulated so far, starting from the logger's
    context. *)
Record EventData := mkEvent {
  evLevel : Level;
  evW : nat;
  buf : Builder
}.

(** Modelled from the spec: [*Event], absent from the adapter files.  An
    event is a single mutable accumulator; every method mutates the pointee
    and returns the receiver, so that the state after a call is the value
    returned.  [None] is the nil event of a disabled level: its methods do
    nothing. *)
Definition Event := option EventData.

(** Modelled from the spec: [Logger.WithLevel], absent from the adapter
    files; opens an event at the given severity, disabled when that
    severity is below the logger's configured minimum. *)
Definition WithLevel (lg : Logger) (lvl : Level) : Event :=
  if (Level_int lvl >=? Level_int (level lg))%Z
  then Some (mkEvent lvl (w lg) (context lg))
  else None.

(** Modelled from the spec: a field write on a [*Event], absent from the
    adapter files; a nil event is left nil. *)
Definition Event_write (e : Event) (key : string) (v : FieldValue) : Event :=
  match e with
  | None => None
  | Some d => Some (mkEvent (evLevel d) (evW d) (write (buf d) key v))
  end.

(** Modelled from the spec: [Event.openGroup], absent from the adapter
    files. *)
Definition Event_openGroup (e : Event) (name : string) : Event :=
  match e with
  | None => None
  | Some d =>
      Some (mkEvent (evLevel d) (evW d) (Builder_openGroup (buf d) name))
  end.

(** Modelled from the spec: [Event.closeGroup], absent from the adapter
    files. *)
Definition Event_closeGroup (e : Event) (n : Z) : Event :=
  match e with
  | None => None
  | Some d =>
      Some (mkEvent (evLevel d) (evW d) (Builder_closeGroup (buf d) n))
  end.

(** Modelled from the spec: [Event.grouped], absent from the adapter
    files. *)
Definition Event_grouped (e : Event) (name : string) (f : Event -> Event)
  : Event :=
  Event_closeGroup (f (Event_openGroup e name)) 1.

(** Modelled from the spec: the exported [Context.Group], [Context.Ungroup]
    and [Context.Grouped] that [zslog] calls, absent from the adapter files.
    The specification describes one open-group and one close-group operation
    on a builder; the exported names are taken to be these operations. *)
Definition Context_Group := Context_openGroup.
Definition Context_Ungroup := Context_closeGroup.
Definition Context_Grouped := Context_grouped.

(** Modelled from the spec: the exported [Event.Group], [Event.Ungroup] and
    [Event.Grouped] that [zslog] calls, absent from the adapter files; as for
    [Context]. *)
Definition Event_Group := Event_openGroup.
Definition Event_Ungroup := Event_closeGroup.
Definition Event_Grouped := Event_grouped.

(** Modelled from the spec: a serialized record as the sink receives it,
    absent from the adapter files: the severity of the event and what its
    accumulator held when it was emitted. *)
Record Entry := mkEntry {
  entryLevel : Level;
  entryBody : Builder
}.

(** Modelled from the spec: what the sinks have received, absent from the
    adapter files; each record with the sink it went to, oldest first. *)
Definition Output : Type := list (nat * Entry).

(** Parameters of the development: zerolog's package-level field names,
    declared outside the adapter files, and the Go runtime's resolution of a
    program counter to the file and line of its frame
    ([runtime.CallersFrames]). *)
Class Globals := mkGlobals {
  CallerFieldName : string;
  TimestampFieldName : string;
  MessageFieldName : string;
  CallersFrame : Z -> string * Z
}.

(** Modelled from the spec: [Event.Msg], absent from the adapter files;
    writes the message field and emits the event to the sink, once.  A
    disabled event emits nothing. *)
Definition Msg `{Globals} (e : Event) (msg : string) (out : Output)
  : Output :=
  match e with
  | None => out
  | Some d =>
      out ++ [(evW d,
               mkEntry (evLevel d) (write (buf d) MessageFieldName (FStr msg)))]
  end.

(** *** The adapter ([slog.go]) *)

(** [SlogHandlerOptions]: [OptLevel] is the field [Level], a
    [slog.Leveler]; [None] is the nil interface, [Some m] a leveler whose
    [Level()] returns [m]. *)
Record SlogHandlerOptions := mkOptions {
  AddSource : bool;
  OptLevel : option slog.Level
}.

Record SlogHandler := mkHandler {
  opts : ptr;
  logger : Logger
}.

(** Computations over a store of [SlogHandler] and [SlogHandlerOptions]
    cells. *)
Definition St := Store SlogHandler SlogHandlerOptions Entry.
Definition Go (A : Type) : Type := @M SlogHandler SlogHandlerOptions Entry A.

(** [zlogWriter[E]]: the methods common to [Context] and [*Event]. *)
Class zlogWriter (E : Type) := {
  Bool : E -> string -> bool -> E;
  Dur : E -> string -> Z -> E;
  Float64 : E -> string -> Z -> E;
  Int64 : E -> string -> Z -> E;
  Str : E -> string -> string -> E;
  Time : E -> string -> Z -> E;
  Uint64 : E -> string -> Z -> E;
  Interface : E -> string -> any -> E;
  AnErr : E -> string -> error -> E;
  Stringer : E -> string -> string -> E;
  IPAddr : E -> string -> net.IP -> E;
  IPPrefix : E -> string -> net.IPNet -> E;
  MACAddr : E -> string -> net.HardwareAddr -> E;
  RawJSON : E -> string -> list byte -> E;
  grouped : E -> string -> (E -> E) -> E
}.

(** Modelled from the spec: the method set of [*Event], absent from the
    adapter files; each write method records its field. *)
#[export] Instance Event_zlogWriter : zlogWriter Event := {
  Bool e k v := Event_write e k (FBool v);
  Dur e k v := Event_write e k (FDur v);
  Float64 e k v := Event_write e k (FFloat64 v);
  Int64 e k v := Event_write e k (FInt64 v);
  Str e k v := Event_write e k (FStr v);
  Time e k v := Event_write e k (FTime v);
  Uint64 e k v := Event_write e k (FUint64 v);
  Interface e k v := Event_write e k (FInterface v);
  AnErr e k v := Event_write e k (FAnErr v);
  Stringer e k v := Event_write e k (FStringer v);
  IPAddr e k v := Event_write e k (FIPAddr v);
  IPPrefix e k v := Event_write e k (FIPPrefix v);
  MACAddr e k v := Event_write e k (FMACAddr v);
  RawJSON e k v := Event_write e k (FRawJSON v);
  grouped := Event_grouped
}.

(** Modelled from the spec: the method set of [Context], absent from the
    adapter files; each write method records its field. *)
#[export] Instance Context_zlogWriter : zlogWriter Context := {
  Bool c k v := Context_write c k (FBool v);
  Dur c k v := Context_write c k (FDur v);
  Float64 c k v := Context_write c k (FFloat64 v);
  Int64 c k v := Context_write c k (FInt64 v);
  Str c k v := Context_write c k (FStr v);
  Time c k v := Context_write c k (FTime v);
  Uint64 c k v := Context_write c k (FUint64 v);
  Interface c k v := Context_write c k (FInterface v);
  AnErr c k v := Context_write c k (FAnErr v);
  Stringer c k v := Context_write c k (FStringer v);
  IPAddr c k v := Context_write c k (FIPAddr v);
  IPPrefix c k v := Context_write c k (FIPPrefix v);
  MACAddr c k v := Context_write c k (FMACAddr v);
  RawJSON c k v := Context_write c k (FRawJSON v);
  grouped := Context_grouped
}.

(** [zerologLevel] maps [slog.Level] into [Level]. *)
Definition zerologLevel (lvl : slog.Level) : Level :=
  if (lvl <? slog.LevelDebug)%Z then TraceLevel
  else if (lvl <? slog.LevelInfo)%Z then DebugLevel
  else if (lvl <? slog.LevelWarn)%Z then InfoLevel
  else if (lvl <? slog.LevelError)%Z then WarnLevel
  else ErrorLevel.

Section Dispatch.
Context {T : Type} {W : zlogWriter T}.

(** The type switch of [mapAttrAny]: the three concrete types first,
    then the interfaces in the order of the cases. *)
Definition mapAttrAny (target : T) (key : string) (value : any) : T :=
  match dynType value with
  | DynIP v => IPAddr target key v
  | DynIPNet v => IPPrefix target key v
  | DynHardwareAddr v => MACAddr target key v
  | DynOther =>
      match asError value with
      | Some v => AnErr target key v
      | None =>
          match asStringer value with
          | Some v => Stringer target key v
          | None =>
              match asJSONMarshaler value with
              | Some (txt, err) =>
                  match err with
                  | None => RawJSON target key txt
                  | Some e => Str target key ("!ERROR:" ++ e)%string
                  end
              | None =>
                  match asTextMarshaler value with
                  | Some (txt, err) =>
                      match err with
                      | None => Str target key (string_of_list_byte txt)
                      | Some e => Str target key ("!ERROR:" ++ e)%string
                      end
                  | None => Interface target key value
                  end
              end
          end
      end
  end.

(** [mapAttrs] and [mapAttr] call each other; they are the two halves
    of one function on the sum of their arguments, recursive on the
    size of the attributes. *)
Definition work_size (x : slog.Attr + list slog.Attr) : nat :=
  match x with
  | inl a => slog.Attr_size a
  | inr l => slog.Attrs_size l
  end.


Equations? mapAttrX (x : slog.Attr + list slog.Attr) (target : T) : T
  by wf (work_size x) lt :=
  (* mapAttrs *)
  mapAttrX (inr []) target := target;
  mapAttrX (inr (attr :: a)) target :=
    mapAttrX (inr a) (mapAttrX (inl attr) target);
  (* mapAttr *)
  mapAttrX (inl a) target with inspect (slog.Resolve (slog.AttrValue a)) := {
    | exist _ (slog.GroupValue g) Hv =>
        grouped target (slog.Key a) (fun t => mapAttrX (inr g) t)
    | exist _ (slog.BoolValue b) _ => Bool target (slog.Key a) b
    | exist _ (slog.DurationValue d) _ => Dur target (slog.Key a) d
    | exist _ (slog.Float64Value f) _ => Float64 target (slog.Key a) f
    | exist _ (slog.Int64Value i) _ => Int64 target (slog.Key a) i
    | exist _ (slog.StringValue s) _ => Str target (slog.Key a) s
    | exist _ (slog.TimeValue t) _ => Time target (slog.Key a) t
    | exist _ (slog.Uint64Value u) _ => Uint64 target (slog.Key a) u
    | exist _ (slog.AnyValue v) _ => mapAttrAny target (slog.Key a) v
    | exist _ (slog.LogValuerValue v n) _ =>
        mapAttrAny target (slog.Key a) (slog.Any (slog.LogValuerValue v n)) }.
Proof.
  all: simpl; try lia.
  destruct a as [k v]; simpl in *.
  slog.resolved_group_smaller v Hv.
Qed.

(** [mapAttrs] writes multiple [slog.Attr] into the target, which is either
    a [Context] or a [*Event]. *)
Definition mapAttrs (target : T) (a : list slog.Attr) : T :=
  mapAttrX (inr a) target.

(** [mapAttr] writes a [slog.Attr] into the target, which is either a
    [Context] or a [*Event]. *)
Definition mapAttr (target : T) (a : slog.Attr) : T :=
  mapAttrX (inl a) target.

End Dispatch.


Section Handler.
Context {G : Globals}.

(** [NewSlogHandler] wraps a [Logger] to which log records will be sent.
    If [opts] is nil, default option values are assumed; the options are
    copied into a cell of the handler's own.  The statement
    [logger.With().Timestamp()] builds a context that is dropped: it has no
    effect. *)
Definition NewSlogHandler (logger : Logger) (opts : option ptr) : Go ptr :=
  opts <- match opts with
          | None => newOptions (mkOptions false None)
          | Some p => ret p
          end ;;
  opt <- loadOptions opts ;;
  opt' <- newOptions opt ;;
  newHandler (mkHandler opt' logger).

(** [Enabled] implements [slog.Handler]. *)
Definition Enabled (h : ptr) (lvl : slog.Level) : Go bool :=
  hv <- loadHandler h ;;
  o <- loadOptions (opts hv) ;;
  match OptLevel o with
  | Some m => ret (lvl >=? m)%Z
  | None => ret (Level_int (zerologLevel lvl) >=? Level_int (GetLevel (logger hv)))%Z
  end.

(** [Handle] implements [slog.Handler].  The event is mutated in place by
    the calls whose result the Go code drops; its state after each call is
    the value the call returns.  The error returned is always nil. *)
Definition Handle (h : ptr) (rec : slog.Record_) : Go (option error) :=
  hv <- loadHandler h ;;
  o <- loadOptions (opts hv) ;;
  let logger :=
    match OptLevel o with
    | Some m => Logger_Level (logger hv) (zerologLevel m)
    | None => logger hv
    end in
  let evt := WithLevel logger (zerologLevel (slog.RecLevel rec)) in
  let evt := slog.Attrs rec (fun a evt => (mapAttr evt a, true)) evt in
  let evt :=
    if AddSource o && (slog.PC rec >? 0)%Z then
      let (file, line) := CallersFrame (slog.PC rec) in
      Str evt CallerFieldName (Sprintf_s_d file line)
    else evt in
  let evt := Event_closeGroup evt (-1) in
  let evt := Time evt TimestampFieldName (slog.Time rec) in
  _ <- emit (Msg evt (slog.Message rec)) ;;
  ret None.

(** [WithAttrs] implements [slog.Handler]. *)
Definition WithAttrs (h : ptr) (attrs : list slog.Attr) : Go ptr :=
  hv <- loadHandler h ;;
  newHandler
    (mkHandler (opts hv)
               (Context_Logger (mapAttrs (With (logger hv)) attrs))).

(** [WithGroup] implements [slog.Handler]. *)
Definition WithGroup (h : ptr) (name : string) : Go ptr :=
  hv <- loadHandler h ;;
  newHandler
    (mkHandler (opts hv)
               (Context_Logger (Context_openGroup (With (logger hv)) name))).

End Handler.

End zerolog.

(** ** Package [zslog] ([zslog/slog.go]) *)

Module zslog.


(** [HandlerOptions]: [OptLevel] is the field [Level], a
    [slog.Leveler]; [None] is the nil interface, [Some m] a leveler whose
    [Level()] returns [m]. *)
Record HandlerOptions := mkOptions {
  AddSource : bool;
  OptLevel : option slog.Level
}.

Record Handler := mkHandler {
  opts : ptr;
  logger : zerolog.Logger
}.

(** Computations over a store of [Handler] and [HandlerOptions]
    cells. *)
Definition St := Store Handler HandlerOptions zerolog.Entry.
Definition Go (A : Type) : Type := @M Handler HandlerOptions zerolog.Entry A.

(** [zlogWriter[E]]: the methods common to [Context] and [*Event]. *)
Class zlogWriter (E : Type) := {
  Bool : E -> string -> bool -> E;
  Dur : E -> string -> Z -> E;
  Float64 : E -> string -> Z -> E;
  Int64 : E -> string -> Z -> E;
  Str : E -> string -> string -> E;
  Time : E -> string -> Z -> E;
  Uint64 : E -> string -> Z -> E;
  Interface : E -> string -> any -> E;
  AnErr : E -> string -> error -> E;
  Stringer : E -> string -> string -> E;
  IPAddr : E -> string -> net.IP -> E;
  IPPrefix : E -> string -> net.IPNet -> E;
  MACAddr : E -> string -> net.HardwareAddr -> E;
  RawJSON : E -> string -> list byte -> E;
  Grouped : E -> string -> (E -> E) -> E
}.

(** Modelled from the spec: the method set of [*Event], absent from the
    adapter files; each write method records its field. *)
#[export] Instance Event_zlogWriter : zlogWriter zerolog.Event := {
  Bool e k v := zerolog.Event_write e k (zerolog.FBool v);
  Dur e k v := zerolog.Event_write e k (zerolog.FDur v);
  Float64 e k v := zerolog.Event_write e k (zerolog.FFloat64 v);
  Int64 e k v := zerolog.Event_write e k (zerolog.FInt64 v);
  Str e k v := zerolog.Event_write e k (zerolog.FStr v);
  Time e k v := zerolog.Event_write e k (zerolog.FTime v);
  Uint64 e k v := zerolog.Event_write e k (zerolog.FUint64 v);
  Interface e k v := zerolog.Event_write e k (zerolog.FInterface v);
  AnErr e k v := zerolog.Event_write e k (zerolog.FAnErr v);
  Stringer e k v := zerolog.Event_write e k (zerolog.FStringer v);
  IPAddr e k v := zerolog.Event_write e k (zerolog.FIPAddr v);
  IPPrefix e k v := zerolog.Event_write e k (zerolog.FIPPrefix v);
  MACAddr e k v := zerolog.Event_write e k (zerolog.FMACAddr v);
  RawJSON e k v := zerolog.Event_write e k (zerolog.FRawJSON v);
  Grouped := zerolog.Event_Grouped
}.

(** Modelled from the spec: the method set of [Context], absent from the
    adapter files; each write method records its field. *)
#[export] Instance Context_zlogWriter : zlogWriter zerolog.Context := {
  Bool c k v := zerolog.Context_write c k (zerolog.FBool v);
  Dur c k v := zerolog.Context_write c k (zerolog.FDur v);
  Float64 c k v := zerolog.Context_write c k (zerolog.FFloat64 v);
  Int64 c k v := zerolog.Context_write c k (zerolog.FInt64 v);
  Str c k v := zerolog.Context_write c k (zerolog.FStr v);
  Time c k v := zerolog.Context_write c k (zerolog.FTime v);
  Uint64 c k v := zerolog.Context_write c k (zerolog.FUint64 v);
  Interface c k v := zerolog.Context_write c k (zerolog.FInterface v);
  AnErr c k v := zerolog.Context_write c k (zerolog.FAnErr v);
  Stringer c k v := zerolog.Context_write c k (zerolog.FStringer v);
  IPAddr c k v := zerolog.Context_write c k (zerolog.FIPAddr v);
  IPPrefix c k v := zerolog.Context_write c k (zerolog.FIPPrefix v);
  MACAddr c k v := zerolog.Context_write c k (zerolog.FMACAddr v);
  RawJSON c k v := zerolog.Context_write c k (zerolog.FRawJSON v);
  Grouped := zerolog.Context_Grouped
}.

(** [zerologLevel] maps [slog.Level] into [Level]. *)
Definition zerologLevel (lvl : slog.Level) : zerolog.Level :=
  if (lvl <? slog.LevelDebug)%Z then zerolog.TraceLevel
  else if (lvl <? slog.LevelInfo)%Z then zerolog.DebugLevel
  else if (lvl <? slog.LevelWarn)%Z then zerolog.InfoLevel
  else if (lvl <? slog.LevelError)%Z then zerolog.WarnLevel
  else zerolog.ErrorLevel.

Section Dispatch.
Context {T : Type} {W : zlogWriter T}.

(** The type switch of [mapAttrAny]: the three concrete types first,
    then the interfaces in the order of the cases. *)
Definition mapAttrAny (target : T) (key : string) (value : any) : T :=
  match dynType value with
  | DynIP v => IPAddr target key v
  | DynIPNet v => IPPrefix target key v
  | DynHardwareAddr v => MACAddr target key v
  | DynOther =>
      match asError value with
      | Some v => AnErr target key v
      | None =>
          match asStringer value with
          | Some v => Stringer target key v
          | None =>
              match asJSONMarshaler value with
              | Some (txt, err) =>
                  match err with
                  | None => RawJSON target key txt
                  | Some e => Str target key ("!ERROR:" ++ e)%string
                  end
              | None =>
                  match asTextMarshaler value with
                  | Some (txt, err) =>
                      match err with
                      | None => Str target key (string_of_list_byte txt)
                      | Some e => Str target key ("!ERROR:" ++ e)%string
                      end
                  | None => Interface target key value
                  end
              end
          end
      end
  end.

(** [mapAttrs] and [mapAttr] call each other; they are the two halves
    of one function on the sum of their arguments, recursive on the
    size of the attributes. *)
Definition work_size (x : slog.Attr + list slog.Attr) : nat :=
  match x with
  | inl a => slog.Attr_size a
  | inr l => slog.Attrs_size l
  end.


Equations? mapAttrX (x : slog.Attr + list slog.Attr) (target : T) : T
  by wf (work_size x) lt :=
  (* mapAttrs *)
  mapAttrX (inr []) target := target;
  mapAttrX (inr (attr :: a)) target :=
    mapAttrX (inr a) (mapAttrX (inl attr) target);
  (* mapAttr *)
  mapAttrX (inl a) target with inspect (slog.Resolve (slog.AttrValue a)) := {
    | exist _ (slog.GroupValue g) Hv =>
        Grouped target (slog.Key a) (fun t => mapAttrX (inr g) t)
    | exist _ (slog.BoolValue b) _ => Bool target (slog.Key a) b
    | exist _ (slog.DurationValue d) _ => Dur target (slog.Key a) d
    | exist _ (slog.Float64Value f) _ => Float64 target (slog.Key a) f
    | exist _ (slog.Int64Value i) _ => Int64 target (slog.Key a) i
    | exist _ (slog.StringValue s) _ => Str target (slog.Key a) s
    | exist _ (slog.TimeValue t) _ => Time target (slog.Key a) t
    | exist _ (slog.Uint64Value u) _ => Uint64 target (slog.Key a) u
    | exist _ (slog.AnyValue v) _ => mapAttrAny target (slog.Key a) v
    | exist _ (slog.LogValuerValue v n) _ =>
        mapAttrAny target (slog.Key a) (slog.Any (slog.LogValuerValue v n)) }.
Proof.
  all: simpl; try lia.
  destruct a as [k v]; simpl in *.
  slog.resolved_group_smaller v Hv.
Qed.

(** [mapAttrs] writes multiple [slog.Attr] into the target, which is either
    a [Context] or a [*Event]. *)
Definition mapAttrs (target : T) (a : list slog.Attr) : T :=
  mapAttrX (inr a) target.

(** [mapAttr] writes a [slog.Attr] into the target, which is either a
    [Context] or a [*Event]. *)
Definition mapAttr (target : T) (a : slog.Attr) : T :=
  mapAttrX (inl a) target.

End Dispatch.


Section Handler.
Context {G : zerolog.Globals}.

(** [NewHandler] wraps a [Logger] to which log records will be sent.
    If [opts] is nil, default option values are assumed; the options are
    copied into a cell of the handler's own.  The statement
    [logger.With().Timestamp()] builds a context that is dropped: it has no
    effect. *)
Definition NewHandler (logger : zerolog.Logger) (opts : option ptr) : Go ptr :=
  opts <- match opts with
          | None => newOptions (mkOptions false None)
          | Some p => ret p
          end ;;
  opt <- loadOptions opts ;;
  opt' <- newOptions opt ;;
  newHandler (mkHandler opt' logger).

(** [Enabled] implements [slog.Handler]. *)
Definition Enabled (h : ptr) (lvl : slog.Level) : Go bool :=
  hv <- loadHandler h ;;
  o <- loadOptions (opts hv) ;;
  match OptLevel o with
  | Some m => ret (lvl >=? m)%Z
  | None => ret (zerolog.Level_int (zerologLevel lvl) >=? zerolog.Level_int (zerolog.GetLevel (logger hv)))%Z
  end.

(** [Handle] implements [slog.Handler].  The event is mutated in place by
    the calls whose result the Go code drops; its state after each call is
    the value the call returns.  The error returned is always nil. *)
Definition Handle (h : ptr) (rec : slog.Record_) : Go (option error) :=
  hv <- loadHandler h ;;
  o <- loadOptions (opts hv) ;;
  let logger :=
    match OptLevel o with
    | Some m => zerolog.Logger_Level (logger hv) (zerologLevel m)
    | None => logger hv
    end in
  let evt := zerolog.WithLevel logger (zerologLevel (slog.RecLevel rec)) in
  let evt := slog.Attrs rec (fun a evt => (mapAttr evt a, true)) evt in
  let evt :=
    if AddSource o && (slog.PC rec >? 0)%Z then
      let (file, line) := zerolog.CallersFrame (slog.PC rec) in
      Str evt zerolog.CallerFieldName (Sprintf_s_d file line)
    else evt in
  let evt := zerolog.Event_Ungroup evt (-1) in
  let evt := Time evt zerolog.TimestampFieldName (slog.Time rec) in
  _ <- emit (zerolog.Msg evt (slog.Message rec)) ;;
  ret None.

(** [WithAttrs] implements [slog.Handler]. *)
Definition WithAttrs (h : ptr) (attrs : list slog.Attr) : Go ptr :=
  hv <- loadHandler h ;;
  newHandler
    (mkHandler (opts hv)
               (zerolog.Context_Logger (mapAttrs (zerolog.With (logger hv)) attrs))).

(** [WithGroup] implements [slog.Handler]. *)
Definition WithGroup (h : ptr) (name : string) : Go ptr :=
  hv <- loadHandler h ;;
  newHandler
    (mkHandler (opts hv)
               (zerolog.Context_Logger (zerolog.Context_Group (zerolog.With (logger hv)) name))).

End Handler.

End zslog.

(** * Specification-side definitions and test doubles *)

Import zerolog.

(** ** A recording writer

    An implementation of [zlogWriter] that keeps the sequence of method
    calls it received; the callback of [grouped] is run on an empty
    recording, kept as the body of the call. *)

Inductive Call :=
| CallBool (key : string) (v : bool)
| CallDur (key : string) (v : Z)
| CallFloat64 (key : string) (v : Z)
| CallInt64 (key : string) (v : Z)
| CallStr (key : string) (v : string)
| CallTime (key : string) (v : Z)
| CallUint64 (key : string) (v : Z)
| CallInterface (key : string) (v : any)
| CallAnErr (key : string) (v : error)
| CallStringer (key : string) (v : string)
| CallIPAddr (key : string) (v : net.IP)
| CallIPPrefix (key : string) (v : net.IPNet)
| CallMACAddr (key : string) (v : net.HardwareAddr)
| CallRawJSON (key : string) (v : list byte)
| CallGrouped (key : string) (body : list Call).

#[export] Instance Recorder : zerolog.zlogWriter (list Call) := {
  zerolog.Bool t k v := t ++ [CallBool k v];
  zerolog.Dur t k v := t ++ [CallDur k v];
  zerolog.Float64 t k v := t ++ [CallFloat64 k v];
  zerolog.Int64 t k v := t ++ [CallInt64 k v];
  zerolog.Str t k v := t ++ [CallStr k v];
  zerolog.Time t k v := t ++ [CallTime k v];
  zerolog.Uint64 t k v := t ++ [CallUint64 k v];
  zerolog.Interface t k v := t ++ [CallInterface k v];
  zerolog.AnErr t k v := t ++ [CallAnErr k v];
  zerolog.Stringer t k v := t ++ [CallStringer k v];
  zerolog.IPAddr t k v := t ++ [CallIPAddr k v];
  zerolog.IPPrefix t k v := t ++ [CallIPPrefix k v];
  zerolog.MACAddr t k v := t ++ [CallMACAddr k v];
  zerolog.RawJSON t k v := t ++ [CallRawJSON k v];
  zerolog.grouped t k f := t ++ [CallGrouped k (f [])]
}.

(** ** The ordered capability probe, as the specification states it *)

Inductive Capability :=
| CapIP | CapIPNet | CapMAC | CapError | CapStringer | CapJSON | CapText.

(** The specification's order: network address, network prefix, hardware
    address, error, stringer, JSON marshaler, text marshaler. *)
Definition spec_probeOrder : list Capability :=
  [CapIP; CapIPNet; CapMAC; CapError; CapStringer; CapJSON; CapText].

Definition isSome {A} (o : option A) : bool :=
  match o with Some _ => true | None => false end.

Definition satisfies (v : any) (c : Capability) : bool :=
  match c with
  | CapIP => match dynType v with DynIP _ => true | _ => false end
  | CapIPNet => match dynType v with DynIPNet _ => true | _ => false end
  | CapMAC => match dynType v with DynHardwareAddr _ => true | _ => false end
  | CapError => isSome (asError v)
  | CapStringer => isSome (asStringer v)
  | CapJSON => isSome (asJSONMarshaler v)
  | CapText => isSome (asTextMarshaler v)
  end.

(** First match wins; [None] when no capability matches. *)
Definition spec_firstMatch (v : any) : option Capability :=
  find (satisfies v) spec_probeOrder.

(** What the specification writes for a value, given the one capability
    selected: the dedicated formatter for the three address types, the
    error method, the rendered string, the marshaler's bytes spliced raw or
    its text as a string, the literal ["!ERROR:"] and the message when the
    marshaler fails, the reflective encoder when nothing was selected. *)
Definition spec_writeVia {T} {W : zerolog.zlogWriter T}
           (c : option Capability) (target : T) (key : string) (v : any) : T :=
  match c with
  | Some CapIP =>
      match dynType v with
      | DynIP ip => zerolog.IPAddr target key ip
      | _ => target
      end
  | Some CapIPNet =>
      match dynType v with
      | DynIPNet n => zerolog.IPPrefix target key n
      | _ => target
      end
  | Some CapMAC =>
      match dynType v with
      | DynHardwareAddr m => zerolog.MACAddr target key m
      | _ => target
      end
  | Some CapError =>
      match asError v with
      | Some e => zerolog.AnErr target key e
      | None => target
      end
  | Some CapStringer =>
      match asStringer v with
      | Some str => zerolog.Stringer target key str
      | None => target
      end
  | Some CapJSON =>
      match asJSONMarshaler v with
      | Some (txt, None) => zerolog.RawJSON target key txt
      | Some (_, Some e) => zerolog.Str target key ("!ERROR:" ++ e)%string
      | None => target
      end
  | Some CapText =>
      match asTextMarshaler v with
      | Some (txt, None) => zerolog.Str target key (string_of_list_byte txt)
      | Some (_, Some e) => zerolog.Str target key ("!ERROR:" ++ e)%string
      | None => target
      end
  | None => zerolog.Interface target key v
  end.

(** ** The accumulator as a writer

    [Context] and [*Event] both write through their accumulator; the
    accumulator alone, with the same methods, is the writer they share. *)

#[export] Instance Builder_zlogWriter : zlogWriter Builder := {
  Bool b k v := write b k (FBool v);
  Dur b k v := write b k (FDur v);
  Float64 b k v := write b k (FFloat64 v);
  Int64 b k v := write b k (FInt64 v);
  Str b k v := write b k (FStr v);
  Time b k v := write b k (FTime v);
  Uint64 b k v := write b k (FUint64 v);
  Interface b k v := write b k (FInterface v);
  AnErr b k v := write b k (FAnErr v);
  Stringer b k v := write b k (FStringer v);
  IPAddr b k v := write b k (FIPAddr v);
  IPPrefix b k v := write b k (FIPPrefix v);
  MACAddr b k v := write b k (FMACAddr v);
  RawJSON b k v := write b k (FRawJSON v);
  grouped b k f := Builder_closeGroup (f (Builder_openGroup b k)) 1
}.

(** Writing a sequence of fields, in order. *)
Definition writes (b : Builder) (fs : list Field) : Builder :=
  fold_left (fun b' kv => write b' (fst kv) (snd kv)) fs b.

(** The fields a list of attributes produces, written from an empty
    accumulator. *)
Definition fieldsOf (a : list slog.Attr) : list Field :=
  top (mapAttrs (mkBuilder [] []) a).

Definition fieldOf (a : slog.Attr) : list Field :=
  top (mapAttr (mkBuilder [] []) a).

(** Two writers are related when every method maps related targets to
    related targets, the callback of [grouped] being any pair of functions
    that does. *)
Record writer_rel {T1 T2 : Type} (W1 : zlogWriter T1) (W2 : zlogWriter T2)
       (R : T1 -> T2 -> Prop) : Prop := {
  rel_Bool : forall t1 t2 k v, R t1 t2 -> R (Bool t1 k v) (Bool t2 k v);
  rel_Dur : forall t1 t2 k v, R t1 t2 -> R (Dur t1 k v) (Dur t2 k v);
  rel_Float64 :
    forall t1 t2 k v, R t1 t2 -> R (Float64 t1 k v) (Float64 t2 k v);
  rel_Int64 : forall t1 t2 k v, R t1 t2 -> R (Int64 t1 k v) (Int64 t2 k v);
  rel_Str : forall t1 t2 k v, R t1 t2 -> R (Str t1 k v) (Str t2 k v);
  rel_Time : forall t1 t2 k v, R t1 t2 -> R (Time t1 k v) (Time t2 k v);
  rel_Uint64 : forall t1 t2 k v, R t1 t2 -> R (Uint64 t1 k v) (Uint64 t2 k v);
  rel_Interface :
    forall t1 t2 k v, R t1 t2 -> R (Interface t1 k v) (Interface t2 k v);
  rel_AnErr : forall t1 t2 k v, R t1 t2 -> R (AnErr t1 k v) (AnErr t2 k v);
  rel_Stringer :
    forall t1 t2 k v, R t1 t2 -> R (Stringer t1 k v) (Stringer t2 k v);
  rel_IPAddr : forall t1 t2 k v, R t1 t2 -> R (IPAddr t1 k v) (IPAddr t2 k v);
  rel_IPPrefix :
    forall t1 t2 k v, R t1 t2 -> R (IPPrefix t1 k v) (IPPrefix t2 k v);
  rel_MACAddr :
    forall t1 t2 k v, R t1 t2 -> R (MACAddr t1 k v) (MACAddr t2 k v);
  rel_RawJSON :
    forall t1 t2 k v, R t1 t2 -> R (RawJSON t1 k v) (RawJSON t2 k v);
  rel_grouped :
    forall t1 t2 k f1 f2,
      R t1 t2 -> (forall u1 u2, R u1 u2 -> R (f1 u1) (f2 u2)) ->
      R (grouped t1 k f1) (grouped t2 k f2)
}.

(** An enabled event and its accumulator; a context and its accumulator. *)
Definition Event_holds (lvl : Level) (sink : nat) (e : Event) (b : Builder)
  : Prop := e = Some (mkEvent lvl sink b).

Definition Context_holds (lvl : Level) (sink : nat) (c : Context)
           (b : Builder) : Prop := c = mkContext (mkLogger sink lvl b).

(** ** The handler *)

(** The logger [Handle] opens its event on: the bound logger, its level
    overridden by the explicit minimum when there is one. *)
Definition activeLogger (hv : SlogHandler) (o : SlogHandlerOptions) : Logger :=
  match OptLevel o with
  | Some m => Logger_Level (logger hv) (zerologLevel m)
  | None => logger hv
  end.

(** The call-site field [Handle] adds, if any. *)
Definition sourceFields `{Globals} (o : SlogHandlerOptions)
           (rec : slog.Record_) : list Field :=
  if AddSource o && (slog.PC rec >? 0)%Z then
    let (file, line) := CallersFrame (slog.PC rec) in
    [(CallerFieldName, FStr (Sprintf_s_d file line))]
  else [].

(** The accumulator of the event when [Handle] emits it. *)
Definition handledBody `{Globals} (lg : Logger) (o : SlogHandlerOptions)
           (rec : slog.Record_) : Builder :=
  let b := writes (context lg) (fieldsOf (slog.attrs rec) ++ sourceFields o rec) in
  mkBuilder (top (Builder_closeGroup b (-1))
             ++ [(TimestampFieldName, FTime (slog.Time rec));
                 (MessageFieldName, FStr (slog.Message rec))])
            [].

(** ** Lazy values *)

(** The number of [LogValue] calls needed to reach a value that is not a
    [LogValuer], and that value. *)
Fixpoint LogValuer_depth (v : slog.Value) : nat :=
  match v with
  | slog.LogValuerValue _ next => S (LogValuer_depth next)
  | _ => O
  end.

Fixpoint unwrap (v : slog.Value) : slog.Value :=
  match v with
  | slog.LogValuerValue _ next => unwrap next
  | _ => v
  end.

(** ** Example values *)

(** An error value that also has [String] and [MarshalJSON] methods. *)
Definition v_error_stringer_json : any :=
  mkAny "*app.Failure" DynOther (Some "boom") (Some "failure(boom)")
        (Some (list_byte_of_string "{}", None)) None.

(** The [stringer] and [jsoner] of the test file, and a value with both
    method sets. *)
Definition v_stringer : any :=
  mkAny "zerolog.stringer" DynOther None (Some "stringer") None None.

(** The bytes [jsoner.MarshalJSON] returns for the field value [bar]: an
    object with the one key [foo]. *)
Definition jsoner_bytes : list byte :=
  [x7b; x22; x66; x6f; x6f; x22; x3a; x20; x22; x62; x61; x72; x22; x7d].

Definition v_jsoner (err : option error) : any :=
  mkAny "*zerolog.jsoner" DynOther None None (Some (jsoner_bytes, err)) None.

Definition v_marshaller (err : option error) : any :=
  mkAny "*zerolog.marshaller" DynOther None None None
        (Some (list_byte_of_string "marshaller", err)).

Definition v_stringer_json : any :=
  mkAny "app.Both" DynOther None (Some "rendered")
        (Some (list_byte_of_string "{}", None)) None.

(** A lazy value whose holder is itself a [fmt.Stringer] and whose
    [LogValue] returns a string. *)
Definition v_lazy : slog.Value :=
  slog.LogValuerValue
    (mkAny "app.Secret" DynOther None (Some "holder") None None)
    (slog.StringValue "resolved").

(** A store with one handler at level Info, first with the explicit minimum
    Warn+1, then without. *)
Definition s_explicit : St :=
  mkStore [mkHandler 0%nat (mkLogger 0%nat InfoLevel (mkBuilder [] []))]
          [mkOptions false (Some (slog.LevelWarn + 1))] [].

Definition s_default : St :=
  mkStore [mkHandler 0%nat (mkLogger 0%nat InfoLevel (mkBuilder [] []))]
          [mkOptions false None] [].

(** Field names and a frame table for the examples. *)
Definition G0 : Globals :=
  mkGlobals "caller" "time" "message" (fun _ => ("main.go", 42)).

(** A record at level Warn with one attribute, and a store whose handler is
    bound to a logger with a top-level attribute and an open group, as
    [WithAttrs] followed by [WithGroup] leave it. *)
Definition rec_warn : slog.Record_ :=
  slog.mkRecord 1700000000 "foobar" slog.LevelWarn 0
                [slog.mkAttr "n" (slog.Int64Value 12)].

Definition s_grouped : St :=
  mkStore [mkHandler 0%nat
                     (mkLogger 0%nat InfoLevel
                               (mkBuilder [("attr", FStr "the attr")]
                                          [("testgroup", [])]))]
          [mkOptions false None] [].

(** ** The two adapters side by side *)

(** A [zslog] writer seen as a writer of package [zerolog]: the same
    methods, [Grouped] for [grouped]. *)
Definition ofZslog {T : Type} (W : zslog.zlogWriter T) : zlogWriter T := {|
  Bool := zslog.Bool;
  Dur := zslog.Dur;
  Float64 := zslog.Float64;
  Int64 := zslog.Int64;
  Str := zslog.Str;
  Time := zslog.Time;
  Uint64 := zslog.Uint64;
  Interface := zslog.Interface;
  AnErr := zslog.AnErr;
  Stringer := zslog.Stringer;
  IPAddr := zslog.IPAddr;
  IPPrefix := zslog.IPPrefix;
  MACAddr := zslog.MACAddr;
  RawJSON := zslog.RawJSON;
  grouped := zslog.Grouped
|}.

(** Equally configured instances: the same options, the same bound logger,
    at the same addresses, and sinks that have received the same records. *)
Definition toZslogOptions (o : SlogHandlerOptions) : zslog.HandlerOptions :=
  zslog.mkOptions (AddSource o) (OptLevel o).

Definition toZslogHandler (hv : SlogHandler) : zslog.Handler :=
  zslog.mkHandler (opts hv) (logger hv).

Definition toZslogStore (s : St) : zslog.St :=
  mkStore (map toZslogHandler (handlers s)) (map toZslogOptions (options s))
          (output s).

(** The calls a client can make, and what they answer. *)
Inductive Op :=
| OpNew (lg : Logger) (o : option ptr)
| OpEnabled (h : ptr) (lvl : slog.Level)
| OpHandle (h : ptr) (rec : slog.Record_)
| OpWithAttrs (h : ptr) (a : list slog.Attr)
| OpWithGroup (h : ptr) (name : string).

Inductive Answer :=
| AnsHandler (p : ptr)
| AnsBool (b : bool)
| AnsError (e : option error).

Section Runs.
Context {G : Globals}.

Definition step (op : Op) : Go Answer :=
  match op with
  | OpNew lg o => p <- NewSlogHandler lg o ;; ret (AnsHandler p)
  | OpEnabled h lvl => b <- Enabled h lvl ;; ret (AnsBool b)
  | OpHandle h rec => e <- Handle h rec ;; ret (AnsError e)
  | OpWithAttrs h a => p <- WithAttrs h a ;; ret (AnsHandler p)
  | OpWithGroup h name => p <- WithGroup h name ;; ret (AnsHandler p)
  end.

Fixpoint run (ops : list Op) : Go (list Answer) :=
  match ops with
  | [] => ret []
  | op :: rest => a <- step op ;; r <- run rest ;; ret (a :: r)
  end.

Definition zslog_step (op : Op) : zslog.Go Answer :=
  match op with
  | OpNew lg o => p <- zslog.NewHandler lg o ;; ret (AnsHandler p)
  | OpEnabled h lvl => b <- zslog.Enabled h lvl ;; ret (AnsBool b)
  | OpHandle h rec => e <- zslog.Handle h rec ;; ret (AnsError e)
  | OpWithAttrs h a => p <- zslog.WithAttrs h a ;; ret (AnsHandler p)
  | OpWithGroup h name => p <- zslog.WithGroup h name ;; ret (AnsHandler p)
  end.

Fixpoint zslog_run (ops : list Op) : zslog.Go (list Answer) :=
  match ops with
  | [] => ret []
  | op :: rest => a <- zslog_step op ;; r <- zslog_run rest ;; ret (a :: r)
  end.

End Runs.

(** The result of a run of [SlogHandler] calls, seen on the [zslog] side. *)
Definition toZslogResult {A : Type} (r : option (A * St))
  : option (A * zslog.St) :=
  match r with
  | Some (a, s) => Some (a, toZslogStore s)
  | None => None
  end.

(** A sequence of calls that derives two handlers from the same one, asks
    both whether Warn is enabled and handles a record with each. *)
Definition ops_example : list Op :=
  [OpNew (mkLogger 0%nat InfoLevel (mkBuilder [] [])) None;
   OpWithAttrs 0%nat [slog.mkAttr "attr" (slog.StringValue "the attr")];
   OpWithGroup 0%nat "testgroup";
   OpEnabled 1%nat slog.LevelWarn;
   OpHandle 1%nat rec_warn;
   OpHandle 2%nat rec_warn].

Definition s_empty : St := mkStore [] [] [].

(** ** The attributes and the expectations of the test file *)

Definition v_unknown : any :=
  mkAny "zerolog.unknown" DynOther None None None None.

Definition v_err : any :=
  mkAny "*errors.errorString" DynOther (Some "yo") None None None.

Definition ip_192_168_1_2 : net.IP := [xc0; xa8; x01; x02].

Definition ipnet_192_168_1_0_24 : net.IPNet :=
  net.mkIPNet [xc0; xa8; x01; x00] [xff; xff; xff; x00].

Definition mac_5e : net.HardwareAddr := [x00; x00; x5e; x00; x53; x01].

(** [net.IP] and [net.HardwareAddr] have a [String] method, [net.IP] also a
    [MarshalText] method. *)
Definition v_ip : any :=
  mkAny "net.IP" (DynIP ip_192_168_1_2) None (Some "192.168.1.2") None
        (Some (list_byte_of_string "192.168.1.2", None)).

Definition v_ipnet : any :=
  mkAny "net.IPNet" (DynIPNet ipnet_192_168_1_0_24) None None None None.

Definition v_mac : any :=
  mkAny "net.HardwareAddr" (DynHardwareAddr mac_5e) None
        (Some "00:00:5e:00:53:01") None None.

Definition test_now : Z := 1700000000.

(** The variable [attrs] of the test file; 23.7 is given by its bits. *)
Definition test_attrs : list slog.Attr :=
  [slog.mkAttr "titi" (slog.StringValue "toto");
   slog.mkAttr "tata" (slog.StringValue "tutu");
   slog.mkAttr "foo" (slog.Int64Value 12);
   slog.mkAttr "bar" (slog.Uint64Value 42);
   slog.mkAttr "dur" (slog.DurationValue 3000000000);
   slog.mkAttr "bool" (slog.BoolValue true);
   slog.mkAttr "float" (slog.Float64Value 4627364174630171443);
   slog.mkAttr "thetime" (slog.TimeValue test_now);
   slog.mkAttr "err" (slog.AnyValue v_err);
   slog.mkAttr "empty" (slog.GroupValue []);
   slog.mkAttr "group"
               (slog.GroupValue [slog.mkAttr "bar" (slog.StringValue "baz")]);
   slog.mkAttr "ip" (slog.AnyValue v_ip);
   slog.mkAttr "ipnet" (slog.AnyValue v_ipnet);
   slog.mkAttr "mac" (slog.AnyValue v_mac);
   slog.mkAttr "stringer" (slog.AnyValue v_stringer);
   slog.mkAttr "marshaller" (slog.AnyValue (v_marshaller None));
   slog.mkAttr "marshaller-err"
               (slog.AnyValue (v_marshaller (Some "failure")));
   slog.mkAttr "unknown" (slog.AnyValue v_unknown);
   slog.mkAttr "json" (slog.AnyValue (v_jsoner None));
   slog.mkAttr "json-err" (slog.AnyValue (v_jsoner (Some "failure")))].

(** The variable [exp] of the test file, as written fields: one entry for
    each attribute but the empty group. *)
Definition test_exp : list Field :=
  [("titi", FStr "toto");
   ("tata", FStr "tutu");
   ("foo", FInt64 12);
   ("bar", FUint64 42);
   ("dur", FDur 3000000000);
   ("bool", FBool true);
   ("float", FFloat64 4627364174630171443);
   ("thetime", FTime test_now);
   ("err", FAnErr "yo");
   ("group", FObject [("bar", FStr "baz")]);
   ("ip", FIPAddr ip_192_168_1_2);
   ("ipnet", FIPPrefix ipnet_192_168_1_0_24);
   ("mac", FMACAddr mac_5e);
   ("stringer", FStringer "stringer");
   ("marshaller", FStr "marshaller");
   ("marshaller-err", FStr "!ERROR:failure");
   ("unknown", FInterface v_unknown);
   ("json", FRawJSON jsoner_bytes);
   ("json-err", FStr "!ERROR:failure")].

(** The calls of [TestZerolog_Group]: a handler on a logger at level Info,
    an attribute, a group, an attribute, a group, two enablement checks and
    a record at level Warn carrying [attrs]. *)
Definition test_group_ops : list Op :=
  [OpNew (mkLogger 0%nat InfoLevel (mkBuilder [] [])) None;
   OpWithAttrs 0%nat [slog.mkAttr "attr" (slog.StringValue "the attr")];
   OpWithGroup 1%nat "testgroup";
   OpWithAttrs 2%nat [slog.mkAttr "attr" (slog.StringValue "the attr")];
   OpWithGroup 3%nat "subgroup";
   OpEnabled 4%nat slog.LevelError;
   OpEnabled 4%nat slog.LevelDebug;
   OpHandle 4%nat
            (slog.AddAttrs
               (slog.NewRecord test_now slog.LevelWarn "foobar" 0)
               test_attrs)].

(** The table [levels] of the test file. *)
Definition test_levels : list (Level * slog.Level) :=
  [(TraceLevel, slog.LevelDebug - 1);
   (DebugLevel, slog.LevelDebug);
   (InfoLevel, slog.LevelInfo);
   (WarnLevel, slog.LevelWarn);
   (WarnLevel, slog.LevelWarn + 1);
   (WarnLevel, slog.LevelError - 1);
   (ErrorLevel, slog.LevelError);
   (ErrorLevel, slog.LevelError + 1)].

(** One iteration of [TestZerolog_Levels] (the front-end level of the row
    [lvl] as explicit minimum, on a logger at level Info) or of
    [TestZerolog_Levels_NoOption] (no explicit minimum, on a logger at the
    back-end level of the row [lvl]), for the row [l]: the handler answers as
    the test expects, a record is emitted when the level is enabled and
    carries the back-end level of [l], and without an explicit minimum
    nothing is emitted when the level is not enabled. *)
Definition Level_eqb (a b : Level) : bool :=
  (Level_int a =? Level_int b)%Z.

Definition test_levels_row (explicit : bool) (lvl l : Level * slog.Level)
  : bool :=
  let s : St :=
    if explicit
    then mkStore [mkHandler 0%nat (mkLogger 0%nat InfoLevel (mkBuilder [] []))]
                 [mkOptions false (Some (snd lvl))] []
    else mkStore [mkHandler 0%nat
                            (mkLogger 0%nat (fst lvl) (mkBuilder [] []))]
                 [mkOptions false None] [] in
  let enabled :=
    if explicit then (snd l >=? snd lvl)%Z
    else (Level_int (fst l) >=? Level_int (fst lvl))%Z in
  let answer :=
    match Enabled 0%nat (snd l) s with
    | Some (b, _) => Bool.eqb b enabled
    | None => false
    end in
  let emitted :=
    match Handle (G := G0) 0%nat
                 (slog.NewRecord test_now (snd l) "foobar" 0) s with
    | Some (_, s') =>
        match output s' with
        | [] => negb enabled
        | [(_, e)] =>
            if enabled then Level_eqb (entryLevel e) (fst l) else explicit
        | _ => false
        end
    | None => false
    end in
  answer && emitted.

(** ** Definitions for the further properties *)

(** The key a recorded call was made with. *)
Definition callKey (c : Call) : string :=
  match c with
  | CallBool k _ | CallDur k _ | CallFloat64 k _ | CallInt64 k _
  | CallStr k _ | CallTime k _ | CallUint64 k _ => k
  | CallInterface k _ | CallAnErr k _ | CallStringer k _ => k
  | CallIPAddr k _ | CallIPPrefix k _ | CallMACAddr k _ => k
  | CallRawJSON k _ | CallGrouped k _ => k
  end.

(** An attribute with its value resolved beforehand. *)
Definition resolved (a : slog.Attr) : slog.Attr :=
  slog.mkAttr (slog.Key a) (slog.Resolve (slog.AttrValue a)).

(** An assignment through a pointer to an options cell, [*p = o], as the
    owner of the cell can do after it passed the pointer to
    [NewSlogHandler]; nothing happens out of range. *)
Fixpoint assign {A : Type} (p : nat) (x : A) (l : list A) {struct l}
  : list A :=
  match l, p with
  | [], _ => []
  | _ :: rest, O => x :: rest
  | y :: rest, S p' => y :: assign p' x rest
  end.

Definition setOptions (p : ptr) (o : SlogHandlerOptions) (s : St) : St :=
  mkStore (handlers s) (assign p o (options s)) (output s).

(** The number of [Handle] calls in a sequence of calls. *)
Definition handleCalls (ops : list Op) : nat :=
  List.length (filter (fun op => match op with
                                 | OpHandle _ _ => true
                                 | _ => false
                                 end) ops).

(** What [Handle] appends to the sinks, read off its result. *)
Definition emittedBy (before : St) (r : option (option error * St))
  : option (list (nat * Entry)) :=
  match r with
  | Some (_, after) =>
      Some (skipn (List.length (output before)) (output after))
  | None => None
  end.

(** The top-level fields that closing all the open groups of an
    accumulator adds, [extra] being the fields written last into the
    innermost group: each group becomes one object of the group around
    it. *)
Fixpoint nest (extra : list Field) (stack : list (string * list Field))
  : list Field :=
  match stack with
  | [] => extra
  | (g, fs) :: outer => nest [(g, FObject (fs ++ extra))] outer
  end.

(** A store whose handler has [AddSource] set. *)
Definition s_source : St :=
  mkStore [mkHandler 0%nat (mkLogger 0%nat InfoLevel (mkBuilder [] []))]
          [mkOptions true None] [].

(** * Properties *)

(** ** The severity ladder *)

(** The back-end levels are ordered Trace < Debug < Info < Warn < Error. *)
Lemma Level_int_order :
  Level_int TraceLevel < Level_int DebugLevel
  /\ Level_int DebugLevel < Level_int InfoLevel
  /\ Level_int InfoLevel < Level_int WarnLevel
  /\ Level_int WarnLevel < Level_int ErrorLevel.
Proof. cbn. lia. Qed.

Ltac ladder :=
  unfold zerologLevel, slog.LevelDebug, slog.LevelInfo, slog.LevelWarn,
    slog.LevelError in *;
  repeat match goal with
         | |- context [(?a <? ?b)%Z] => destruct (Z.ltb_spec a b)
         end.

(** C2.  [zerologLevel] is a total function that places every front-end
    level in exactly one half-open bucket: below Debug gives Trace,
    [Debug, Info) gives Debug, [Info, Warn) gives Info, [Warn, Error) gives
    Warn, Error and above gives Error; the ten boundary values map as the
    table says. *)
Theorem zerologLevel_buckets :
  (forall lvl : slog.Level,
      (zerologLevel lvl = TraceLevel <-> lvl < slog.LevelDebug)
      /\ (zerologLevel lvl = DebugLevel
          <-> slog.LevelDebug <= lvl < slog.LevelInfo)
      /\ (zerologLevel lvl = InfoLevel
          <-> slog.LevelInfo <= lvl < slog.LevelWarn)
      /\ (zerologLevel lvl = WarnLevel
          <-> slog.LevelWarn <= lvl < slog.LevelError)
      /\ (zerologLevel lvl = ErrorLevel <-> slog.LevelError <= lvl))
  /\ zerologLevel (slog.LevelDebug - 1) = TraceLevel
  /\ zerologLevel slog.LevelDebug = DebugLevel
  /\ zerologLevel (slog.LevelInfo - 1) = DebugLevel
  /\ zerologLevel slog.LevelInfo = InfoLevel
  /\ zerologLevel (slog.LevelWarn - 1) = InfoLevel
  /\ zerologLevel slog.LevelWarn = WarnLevel
  /\ zerologLevel (slog.LevelWarn + 1) = WarnLevel
  /\ zerologLevel (slog.LevelError - 1) = WarnLevel
  /\ zerologLevel slog.LevelError = ErrorLevel
  /\ zerologLevel (slog.LevelError + 1) = ErrorLevel.
Proof.
  split; [|repeat split].
  intros lvl. ladder; repeat split; intros;
    try discriminate; try reflexivity; try lia.
Qed.

(** The ladder is monotone: a higher front-end level never maps to a lower
    back-end level. *)
Lemma zerologLevel_monotone (a b : slog.Level) :
  a <= b -> Level_int (zerologLevel a) <= Level_int (zerologLevel b).
Proof. intros H. ladder; cbn; lia. Qed.

(** ** Enablement *)

(** C3.  With an explicit minimum [m] in the options, [Enabled] answers
    [lvl >= m] in front-end units; without one, it converts the candidate
    through the ladder and compares it with the level of the bound logger.
    The store is left as it was. *)
Theorem Enabled_threshold (s : St) (h : ptr) (hv : SlogHandler)
        (o : SlogHandlerOptions) (lvl : slog.Level) :
  nth_error (handlers s) h = Some hv ->
  nth_error (options s) (opts hv) = Some o ->
  (forall m, OptLevel o = Some m -> Enabled h lvl s = Some ((lvl >=? m)%Z, s))
  /\ (OptLevel o = None ->
      Enabled h lvl s
      = Some ((Level_int (zerologLevel lvl)
               >=? Level_int (GetLevel (logger hv)))%Z, s)).
Proof.
  intros Hh Ho. unfold Enabled, bind, loadHandler, loadOptions.
  rewrite Hh, Ho. split.
  - intros m Hm. rewrite Hm. reflexivity.
  - intros Hm. rewrite Hm. reflexivity.
Qed.

Lemma Enabled_threshold_witness :
  Enabled 0%nat slog.LevelWarn s_explicit = Some (false, s_explicit)
  /\ Enabled 0%nat slog.LevelWarn s_default = Some (true, s_default).
Proof.
  split.
  - apply (proj1 (Enabled_threshold s_explicit 0%nat _ _ slog.LevelWarn
                                    eq_refl eq_refl) (slog.LevelWarn + 1)).
    reflexivity.
  - apply (proj2 (Enabled_threshold s_default 0%nat _ _ slog.LevelWarn
                                    eq_refl eq_refl)).
    reflexivity.
Defined.

(** ** Sizes of values *)

Lemma Value_size_group (g : list slog.Attr) :
  slog.Value_size (slog.GroupValue g) = S (slog.Attrs_size g).
Proof. reflexivity. Qed.

Lemma Value_size_pos (v : slog.Value) : (1 <= slog.Value_size v)%nat.
Proof. destruct v; simpl; lia. Qed.

Lemma resolveLoop_size (i : nat) (orig v : slog.Value) :
  (slog.Value_size (slog.resolveLoop i orig v) <= slog.Value_size v)%nat.
Proof.
  revert v. induction i as [|i IH]; intros v.
  - simpl. apply Value_size_pos.
  - destruct v; try (simpl; lia).
    change (slog.resolveLoop (S i) orig (slog.LogValuerValue lv v))
      with (slog.resolveLoop i orig v).
    specialize (IH v). simpl. lia.
Qed.

Lemma Resolve_size (v : slog.Value) :
  (slog.Value_size (slog.Resolve v) <= slog.Value_size v)%nat.
Proof. apply resolveLoop_size. Qed.

(** The children of the group an attribute resolves to are smaller than the
    attribute. *)
Lemma resolved_group_size (a : slog.Attr) (g : list slog.Attr) :
  slog.Resolve (slog.AttrValue a) = slog.GroupValue g ->
  (slog.Attrs_size g < slog.Attr_size a)%nat.
Proof.
  intros H. destruct a as [k v]. cbn [slog.AttrValue slog.Attr_size] in *.
  pose proof (Resolve_size v) as Hs. rewrite H, Value_size_group in Hs. lia.
Qed.

(** ** The dispatcher, equation by equation *)

Section DispatchEquations.
Context {T : Type} {W : zlogWriter T}.

Lemma mapAttrs_nil (target : T) : mapAttrs target [] = target.
Proof. unfold mapAttrs. now simp mapAttrX. Qed.

Lemma mapAttrs_cons (target : T) (attr : slog.Attr) (a : list slog.Attr) :
  mapAttrs target (attr :: a) = mapAttrs (mapAttr target attr) a.
Proof. unfold mapAttrs, mapAttr. now simp mapAttrX. Qed.

(** The loop of [mapAttrs] is a left fold of [mapAttr]. *)
Lemma mapAttrs_fold (a : list slog.Attr) (target : T) :
  mapAttrs target a = fold_left mapAttr a target.
Proof.
  revert target. induction a as [|attr a IH]; intros target.
  - apply mapAttrs_nil.
  - rewrite mapAttrs_cons. apply IH.
Qed.

(** The body of [mapAttr]: resolve, then switch on the kind. *)
Lemma mapAttr_unfold (target : T) (a : slog.Attr) :
  mapAttr target a =
  match slog.Resolve (slog.AttrValue a) with
  | slog.GroupValue g =>
      grouped target (slog.Key a) (fun t => mapAttrs t g)
  | slog.BoolValue b => Bool target (slog.Key a) b
  | slog.DurationValue d => Dur target (slog.Key a) d
  | slog.Float64Value f => Float64 target (slog.Key a) f
  | slog.Int64Value i => Int64 target (slog.Key a) i
  | slog.StringValue s => Str target (slog.Key a) s
  | slog.TimeValue t => Time target (slog.Key a) t
  | slog.Uint64Value u => Uint64 target (slog.Key a) u
  | slog.AnyValue v => mapAttrAny target (slog.Key a) v
  | slog.LogValuerValue v n =>
      mapAttrAny target (slog.Key a) (slog.Any (slog.LogValuerValue v n))
  end.
Proof.
  unfold mapAttr. rewrite mapAttrX_equation_1.
  generalize (inspect (slog.Resolve (slog.AttrValue a))).
  intros [y Hy]. destruct y; simp mapAttrX; rewrite Hy; reflexivity.
Qed.

End DispatchEquations.

(** ** Resolution of lazy values *)

Lemma resolveLoop_unwrap (i : nat) (orig v : slog.Value) :
  (LogValuer_depth v < i)%nat -> slog.resolveLoop i orig v = unwrap v.
Proof.
  revert v. induction i as [|i IH]; intros v Hd; [lia|].
  destruct v; try reflexivity.
  cbn [slog.resolveLoop unwrap]. apply IH. cbn in Hd. lia.
Qed.

Lemma resolveLoop_tooMany (i : nat) (orig v : slog.Value) :
  (i <= LogValuer_depth v)%nat ->
  slog.resolveLoop i orig v = slog.tooManyLogValues orig.
Proof.
  revert v. induction i as [|i IH]; intros v Hd; [reflexivity|].
  destruct v; cbn in Hd; try lia.
  cbn [slog.resolveLoop]. apply IH. lia.
Qed.

Lemma unwrap_depth (v : slog.Value) : LogValuer_depth (unwrap v) = O.
Proof. induction v; cbn; auto. Qed.

(** [Resolve] never returns a value of kind [KindLogValuer]. *)
Lemma Resolve_kind (v : slog.Value) :
  slog.ValueKind (slog.Resolve v) <> slog.KindLogValuer.
Proof.
  unfold slog.Resolve.
  destruct (Nat.lt_ge_cases (LogValuer_depth v) slog.maxLogValues) as [H|H].
  - rewrite resolveLoop_unwrap by exact H.
    pose proof (unwrap_depth v) as Hu.
    destruct (unwrap v); cbn in *; congruence.
  - rewrite resolveLoop_tooMany by exact H. cbn. congruence.
Qed.

Lemma Resolve_shallow (v : slog.Value) :
  LogValuer_depth v = O -> slog.Resolve v = v.
Proof.
  intros H. unfold slog.Resolve. rewrite resolveLoop_unwrap.
  - destruct v; cbn in *; congruence.
  - rewrite H. unfold slog.maxLogValues. lia.
Qed.

Lemma Resolve_idempotent (v : slog.Value) :
  slog.Resolve (slog.Resolve v) = slog.Resolve v.
Proof.
  apply Resolve_shallow.
  pose proof (Resolve_kind v) as Hk.
  destruct (slog.Resolve v); cbn in *; congruence.
Qed.

(** ** The capability probe *)

Section Probe.
Context {T : Type} {W : zlogWriter T}.

(** An attribute of kind Any reaches the type switch with its value
    unchanged. *)
Lemma mapAttr_any (target : T) (key : string) (v : any) :
  mapAttr target (slog.mkAttr key (slog.AnyValue v)) = mapAttrAny target key v.
Proof. rewrite mapAttr_unfold. reflexivity. Qed.

(** The type switch is the specification's first-match probe. *)
Lemma mapAttrAny_first_match (target : T) (key : string) (v : any) :
  mapAttrAny target key v = spec_writeVia (spec_firstMatch v) target key v.
Proof.
  unfold mapAttrAny, spec_firstMatch, spec_writeVia, spec_probeOrder.
  cbn [find satisfies].
  destruct (dynType v); cbn; try reflexivity.
  destruct (asError v); cbn; try reflexivity.
  destruct (asStringer v); cbn; try reflexivity.
  destruct (asJSONMarshaler v) as [[txt [e|]]|]; cbn; try reflexivity.
  destruct (asTextMarshaler v) as [[txt [e|]]|]; cbn; reflexivity.
Qed.

End Probe.

(** C1, as stated, fails on a value that is an error and also has [String]
    and [MarshalJSON] methods: it implements both the stringer and the
    JSON-marshal capability, and the error path is taken, not the stringer
    path. *)
Lemma stringer_path_counterexample :
  asStringer v_error_stringer_json = Some "failure(boom)"
  /\ asJSONMarshaler v_error_stringer_json
     = Some (list_byte_of_string "{}", None)
  /\ mapAttr (W := Recorder) []
             (slog.mkAttr "k" (slog.AnyValue v_error_stringer_json))
     = [CallAnErr "k" "boom"]
  /\ mapAttr (W := Recorder) []
             (slog.mkAttr "k" (slog.AnyValue v_error_stringer_json))
     <> Stringer (zlogWriter := Recorder) [] "k" "failure(boom)".
Proof.
  repeat split; try reflexivity.
  rewrite mapAttr_any. cbn. discriminate.
Qed.

(** C1 (amended).  For every attribute of kind Any, on every writer, the
    dispatcher writes what the first capability matching in the order IP,
    prefix, MAC, error, stringer, JSON marshaler, text marshaler selects,
    and falls back to the reflective encoder when none matches.  A value
    with both the JSON-marshal and the stringer capability never takes the
    JSON path; it takes the stringer path when it is none of the three
    address types and not an error. *)
Theorem mapAttr_any_probe_order {T : Type} {W : zlogWriter T}
        (target : T) (key : string) (v : any) :
  mapAttr target (slog.mkAttr key (slog.AnyValue v))
  = spec_writeVia (spec_firstMatch v) target key v
  /\ (forall str j,
         asStringer v = Some str -> asJSONMarshaler v = Some j ->
         (exists c, spec_firstMatch v = Some c
                    /\ In c [CapIP; CapIPNet; CapMAC; CapError; CapStringer])
         /\ (dynType v = DynOther -> asError v = None ->
             mapAttr target (slog.mkAttr key (slog.AnyValue v))
             = Stringer target key str)).
Proof.
  split.
  - rewrite mapAttr_any. apply mapAttrAny_first_match.
  - intros str j Hs Hj. split.
    + unfold spec_firstMatch, spec_probeOrder. cbn [find satisfies].
      destruct (dynType v); cbn;
        try (eexists; split; [reflexivity | cbn; auto 10]).
      destruct (asError v); cbn;
        try (eexists; split; [reflexivity | cbn; auto 10]).
      rewrite Hs. cbn. eexists; split; [reflexivity | cbn; auto 10].
    + intros Hd He. rewrite mapAttr_any. unfold mapAttrAny.
      rewrite Hd, He, Hs. reflexivity.
Qed.

Lemma mapAttr_any_probe_order_witness :
  mapAttr (W := Recorder) []
          (slog.mkAttr "both" (slog.AnyValue v_stringer_json))
  = [CallStringer "both" "rendered"].
Proof.
  exact (proj2 (proj2 (mapAttr_any_probe_order (W := Recorder) [] "both"
                         v_stringer_json)
                      "rendered" (list_byte_of_string "{}", None)
                      eq_refl eq_refl)
               eq_refl eq_refl).
Defined.

(** ** Lazy values are resolved before the switch *)

(** What [mapAttr] does is a function of the resolved value alone. *)
Lemma mapAttr_same_resolution {T : Type} {W : zlogWriter T}
      (target : T) (key : string) (v v' : slog.Value) :
  slog.Resolve v' = slog.Resolve v ->
  mapAttr target (slog.mkAttr key v') = mapAttr target (slog.mkAttr key v).
Proof.
  intros H. rewrite !mapAttr_unfold. cbn [slog.AttrValue slog.Key].
  rewrite H. reflexivity.
Qed.

(** C10.  [mapAttr] resolves the value before it looks at its kind: the
    resolved value is never of kind LogValuer, two values with the same
    resolution are written alike, the type switch of [mapAttrAny] runs on
    the resolved [any] only, and a lazy value within the limit of
    [LogValue] calls is written as what its [LogValue] returns, whatever
    methods its holder has. *)
Theorem mapAttr_resolves_first {T : Type} {W : zlogWriter T}
        (target : T) (key : string) (v : slog.Value) :
  slog.ValueKind (slog.Resolve v) <> slog.KindLogValuer
  /\ mapAttr target (slog.mkAttr key v)
     = mapAttr target (slog.mkAttr key (slog.Resolve v))
  /\ (forall v', slog.Resolve v' = slog.Resolve v ->
                 mapAttr target (slog.mkAttr key v')
                 = mapAttr target (slog.mkAttr key v))
  /\ (forall x, slog.Resolve v = slog.AnyValue x ->
                mapAttr target (slog.mkAttr key v) = mapAttrAny target key x)
  /\ (forall holder,
         (S (LogValuer_depth v) < slog.maxLogValues)%nat ->
         mapAttr target (slog.mkAttr key (slog.LogValuerValue holder v))
         = mapAttr target (slog.mkAttr key v)).
Proof.
  split; [apply Resolve_kind|].
  split; [symmetry; apply mapAttr_same_resolution, Resolve_idempotent|].
  split; [intros v'; apply mapAttr_same_resolution|].
  split.
  - intros x Hx. rewrite mapAttr_unfold. cbn [slog.AttrValue slog.Key].
    rewrite Hx. reflexivity.
  - intros holder Hd. apply mapAttr_same_resolution.
    unfold slog.Resolve.
    change (slog.resolveLoop slog.maxLogValues
                             (slog.LogValuerValue holder v)
                             (slog.LogValuerValue holder v))
      with (slog.resolveLoop (Nat.pred slog.maxLogValues)
                             (slog.LogValuerValue holder v) v).
    rewrite !resolveLoop_unwrap; [reflexivity | lia |].
    unfold slog.maxLogValues in *. cbn. lia.
Qed.

Lemma mapAttr_resolves_first_witness :
  mapAttr (W := Recorder) [] (slog.mkAttr "secret" v_lazy)
  = mapAttr (W := Recorder) []
            (slog.mkAttr "secret" (slog.StringValue "resolved")).
Proof.
  apply (proj2 (proj2 (proj2 (proj2
           (mapAttr_resolves_first (W := Recorder) [] "secret"
                                   (slog.StringValue "resolved"))))) _).
  unfold slog.maxLogValues. cbn. lia.
Defined.

(** The lazy value of the example is written as the string its [LogValue]
    returns, not through the [String] method of its holder. *)
Example lazy_value_written_resolved :
  mapAttr (W := Recorder) [] (slog.mkAttr "secret" v_lazy)
  = [CallStr "secret" "resolved"].
Proof. rewrite mapAttr_unfold. reflexivity. Qed.

(** ** Induction along the calls of the dispatcher *)

(** A property of the arguments of [mapAttrs] (right) and [mapAttr] (left)
    holds of all of them when it follows the calls: the empty list, a list
    from its first attribute and its rest, an attribute from the children of
    the group it resolves to. *)
Lemma dispatch_ind (P : slog.Attr + list slog.Attr -> Prop) :
  P (inr []) ->
  (forall attr a, P (inl attr) -> P (inr a) -> P (inr (attr :: a))) ->
  (forall a,
      (forall g, slog.Resolve (slog.AttrValue a) = slog.GroupValue g ->
                 P (inr g)) ->
      P (inl a)) ->
  forall x, P x.
Proof.
  intros Hnil Hcons Hattr x.
  induction x as [x IH] using (well_founded_induction
                                 (Wf_nat.well_founded_ltof _ work_size)).
  unfold Wf_nat.ltof in IH.
  destruct x as [a|[|attr a]].
  - apply Hattr. intros g Hg. apply IH. cbn.
    now apply resolved_group_size.
  - exact Hnil.
  - apply Hcons; apply IH; cbn; lia.
Qed.

(** ** Related writers receive related results *)

Section Related.
Context {T1 T2 : Type} {W1 : zlogWriter T1} {W2 : zlogWriter T2}.
Variable R : T1 -> T2 -> Prop.
Hypothesis HR : writer_rel W1 W2 R.

Lemma mapAttrAny_rel (t1 : T1) (t2 : T2) (key : string) (v : any) :
  R t1 t2 -> R (mapAttrAny t1 key v) (mapAttrAny t2 key v).
Proof.
  intros H. unfold mapAttrAny.
  destruct (dynType v);
    [now apply rel_IPAddr | now apply rel_IPPrefix | now apply rel_MACAddr |].
  destruct (asError v); [now apply rel_AnErr|].
  destruct (asStringer v); [now apply rel_Stringer|].
  destruct (asJSONMarshaler v) as [[txt [e|]]|];
    [now apply rel_Str | now apply rel_RawJSON |].
  destruct (asTextMarshaler v) as [[txt [e|]]|];
    [now apply rel_Str | now apply rel_Str | now apply rel_Interface].
Qed.

Lemma mapAttrX_rel (x : slog.Attr + list slog.Attr) :
  forall t1 t2, R t1 t2 -> R (mapAttrX x t1) (mapAttrX x t2).
Proof.
  induction x as [| attr a IHattr IHa | a IHg] using dispatch_ind;
    intros t1 t2 H.
  - change (R (mapAttrs t1 []) (mapAttrs t2 [])).
    now rewrite !mapAttrs_nil.
  - change (R (mapAttrs t1 (attr :: a)) (mapAttrs t2 (attr :: a))).
    rewrite !mapAttrs_cons. apply IHa, IHattr, H.
  - change (R (mapAttr t1 a) (mapAttr t2 a)). rewrite !mapAttr_unfold.
    destruct (slog.Resolve (slog.AttrValue a)) eqn:E.
    + now apply rel_Bool.
    + now apply rel_Dur.
    + now apply rel_Float64.
    + now apply rel_Int64.
    + now apply rel_Str.
    + now apply rel_Time.
    + now apply rel_Uint64.
    + apply (rel_grouped _ _ _ HR); [exact H|].
      intros u1 u2 Hu. apply (IHg g eq_refl), Hu.
    + now apply mapAttrAny_rel.
    + now apply mapAttrAny_rel.
Qed.

Lemma mapAttrs_rel (a : list slog.Attr) (t1 : T1) (t2 : T2) :
  R t1 t2 -> R (mapAttrs t1 a) (mapAttrs t2 a).
Proof. apply (mapAttrX_rel (inr a)). Qed.


End Related.

(** ** The accumulator *)

Lemma writes_app (b : Builder) (fs gs : list Field) :
  writes b (fs ++ gs) = writes (writes b fs) gs.
Proof. apply fold_left_app. Qed.

Lemma writes_in_group (t : list Field) (g : string) (acc fs : list Field)
      (outer : list (string * list Field)) :
  writes (mkBuilder t ((g, acc) :: outer)) fs
  = mkBuilder t ((g, acc ++ fs) :: outer).
Proof.
  revert acc. induction fs as [|[k v] fs IH]; intros acc; cbn.
  - now rewrite app_nil_r.
  - fold (writes (mkBuilder t ((g, acc ++ [(k, v)]) :: outer)) fs).
    rewrite IH, <- app_assoc. reflexivity.
Qed.

Lemma writes_top (t fs : list Field) :
  writes (mkBuilder t []) fs = mkBuilder (t ++ fs) [].
Proof.
  revert t. induction fs as [|[k v] fs IH]; intros t; cbn.
  - now rewrite app_nil_r.
  - fold (writes (mkBuilder (t ++ [(k, v)]) []) fs).
    rewrite IH, <- app_assoc. reflexivity.
Qed.

(** Writes leave the names of the open groups as they are. *)
Lemma write_open_names (b : Builder) (k : string) (v : FieldValue) :
  map fst (open (write b k v)) = map fst (open b).
Proof. unfold write. destruct (open b) as [|[g fs] outer]; reflexivity. Qed.

(** Opening a group, writing into it and closing one level adds the group
    as one nested object to the scope the group was opened in. *)
Lemma closeGroup_of_group (b : Builder) (k : string) (fs : list Field) :
  Builder_closeGroup (writes (Builder_openGroup b k) fs) 1
  = write b k (FObject fs).
Proof.
  unfold Builder_openGroup. rewrite writes_in_group.
  destruct b as [t o]. reflexivity.
Qed.

(** Closing all groups leaves none open. *)
Lemma closeOne_depth (b : Builder) :
  List.length (open (closeOne b)) = Nat.pred (List.length (open b)).
Proof.
  destruct b as [t [|[g fs] [|[g' fs'] outer]]]; reflexivity.
Qed.

Lemma closeOne_iter_depth (n : nat) (b : Builder) :
  List.length (open (Nat.iter n closeOne b))
  = (List.length (open b) - n)%nat.
Proof.
  induction n as [|n IH].
  - cbn. lia.
  - change (Nat.iter (S n) closeOne b) with (closeOne (Nat.iter n closeOne b)).
    rewrite closeOne_depth, IH. lia.
Qed.

Lemma closeGroup_all (b : Builder) : open (Builder_closeGroup b (-1)) = [].
Proof.
  unfold Builder_closeGroup. rewrite Z.eqb_refl.
  apply length_zero_iff_nil. rewrite closeOne_iter_depth. lia.
Qed.

(** ** What the dispatcher writes into an accumulator *)

Lemma mapAttrAny_builder (b : Builder) (key : string) (v : any) :
  mapAttrAny b key v
  = writes b (top (mapAttrAny (mkBuilder [] []) key v)).
Proof.
  unfold mapAttrAny.
  destruct (dynType v); try reflexivity.
  destruct (asError v); try reflexivity.
  destruct (asStringer v); try reflexivity.
  destruct (asJSONMarshaler v) as [[txt [e|]]|]; try reflexivity.
  destruct (asTextMarshaler v) as [[txt [e|]]|]; reflexivity.
Qed.

Lemma mapAttrX_builder (x : slog.Attr + list slog.Attr) :
  forall b, mapAttrX x b = writes b (top (mapAttrX x (mkBuilder [] []))).
Proof.
  induction x as [| attr a IHattr IHa | a IHg] using dispatch_ind; intros b.
  - change (mapAttrs b [] = writes b (top (mapAttrs (mkBuilder [] []) []))).
    now rewrite !mapAttrs_nil.
  - change (mapAttrs b (attr :: a)
            = writes b (top (mapAttrs (mkBuilder [] []) (attr :: a)))).
    rewrite !mapAttrs_cons. unfold mapAttrs, mapAttr.
    rewrite (IHa (mapAttrX (inl attr) b)), (IHattr b).
    rewrite (IHa (mapAttrX (inl attr) _)), (IHattr (mkBuilder [] [])).
    rewrite !writes_top. cbn [top app]. rewrite writes_app. reflexivity.
  - change (mapAttr b a = writes b (top (mapAttr (mkBuilder [] []) a))).
    rewrite !mapAttr_unfold.
    destruct (slog.Resolve (slog.AttrValue a)) eqn:E; try reflexivity.
    + cbn [grouped Builder_zlogWriter]. unfold mapAttrs.
      rewrite !(IHg g eq_refl (Builder_openGroup _ _)).
      rewrite !closeGroup_of_group. reflexivity.
    + apply mapAttrAny_builder.
    + apply mapAttrAny_builder.
Qed.

Lemma mapAttrs_builder (b : Builder) (a : list slog.Attr) :
  mapAttrs b a = writes b (fieldsOf a).
Proof. apply (mapAttrX_builder (inr a)). Qed.

Lemma mapAttr_builder (b : Builder) (a : slog.Attr) :
  mapAttr b a = writes b (fieldOf a).
Proof. apply (mapAttrX_builder (inl a)). Qed.

(** The fields of a group attribute: one nested object holding the fields
    of its children. *)
Lemma fieldOf_group (a : slog.Attr) (g : list slog.Attr) :
  slog.Resolve (slog.AttrValue a) = slog.GroupValue g ->
  fieldOf a = [(slog.Key a, FObject (fieldsOf g))].
Proof.
  intros H. unfold fieldOf. rewrite mapAttr_unfold, H.
  cbn [grouped Builder_zlogWriter]. rewrite mapAttrs_builder.
  rewrite closeGroup_of_group. reflexivity.
Qed.

Lemma fieldsOf_cons (attr : slog.Attr) (a : list slog.Attr) :
  fieldsOf (attr :: a) = fieldOf attr ++ fieldsOf a.
Proof.
  unfold fieldsOf. rewrite mapAttrs_cons, mapAttrs_builder, mapAttr_builder.
  rewrite !writes_top. reflexivity.
Qed.

Lemma fieldsOf_app (a a' : list slog.Attr) :
  fieldsOf (a ++ a') = fieldsOf a ++ fieldsOf a'.
Proof.
  induction a as [|attr a IH]; [reflexivity|].
  cbn [app]. rewrite !fieldsOf_cons, IH, app_assoc. reflexivity.
Qed.

(** The dispatcher leaves the open groups of an accumulator as it found
    them: a group attribute closes the scope it opens. *)
Lemma writes_open_names (b : Builder) (fs : list Field) :
  map fst (open (writes b fs)) = map fst (open b).
Proof.
  revert b. induction fs as [|[k v] fs IH]; intros b; [reflexivity|].
  cbn. unfold writes in IH. rewrite IH. apply write_open_names.
Qed.

Lemma mapAttrs_open_names (b : Builder) (a : list slog.Attr) :
  map fst (open (mapAttrs b a)) = map fst (open b).
Proof. rewrite mapAttrs_builder. apply writes_open_names. Qed.

(** ** Events and contexts write through their accumulator *)

Lemma Event_holds_rel (lvl : Level) (sink : nat) :
  writer_rel Event_zlogWriter Builder_zlogWriter (Event_holds lvl sink).
Proof.
  unfold Event_holds.
  split; intros t1 t2 k; try (intros v H; subst t1; reflexivity).
  intros f1 f2 H Hf. subst t1.
  cbn [grouped Event_zlogWriter Builder_zlogWriter].
  unfold Event_grouped, Event_openGroup. cbn [evLevel evW buf].
  rewrite (Hf _ (Builder_openGroup t2 k) eq_refl). reflexivity.
Qed.

Lemma Context_holds_rel (lvl : Level) (sink : nat) :
  writer_rel Context_zlogWriter Builder_zlogWriter (Context_holds lvl sink).
Proof.
  unfold Context_holds.
  split; intros t1 t2 k; try (intros v H; subst t1; reflexivity).
  intros f1 f2 H Hf. subst t1.
  cbn [grouped Context_zlogWriter Builder_zlogWriter].
  unfold Context_grouped, Context_openGroup. cbn [l w level context].
  rewrite (Hf _ (Builder_openGroup t2 k) eq_refl). reflexivity.
Qed.

(** A disabled event stays disabled, whatever is written to it. *)
Lemma Event_nil_rel :
  writer_rel Event_zlogWriter Builder_zlogWriter (fun e _ => e = None).
Proof.
  split; intros t1 t2 k; try (intros v H; subst t1; reflexivity).
  intros f1 f2 H Hf. subst t1.
  cbn [grouped Event_zlogWriter]. unfold Event_grouped, Event_openGroup.
  rewrite (Hf _ t2 eq_refl). reflexivity.
Qed.

Lemma mapAttrs_nil_event (a : list slog.Attr) : mapAttrs (None : Event) a = None.
Proof.
  exact (mapAttrs_rel _ Event_nil_rel a None (mkBuilder [] []) eq_refl).
Qed.

(** An enabled event accumulates the fields of the attributes, in its
    innermost open group. *)
Lemma mapAttrs_event (lvl : Level) (sink : nat) (b : Builder)
      (a : list slog.Attr) :
  mapAttrs (Some (mkEvent lvl sink b)) a
  = Some (mkEvent lvl sink (writes b (fieldsOf a))).
Proof.
  rewrite <- mapAttrs_builder.
  exact (mapAttrs_rel _ (Event_holds_rel lvl sink) a _ b eq_refl).
Qed.


(** A context accumulates the fields of the attributes likewise. *)
Lemma mapAttrs_context (lg : Logger) (a : list slog.Attr) :
  mapAttrs (With lg) a
  = mkContext (mkLogger (w lg) (level lg) (writes (context lg) (fieldsOf a))).
Proof.
  rewrite <- mapAttrs_builder.
  destruct lg as [sink lvl b].
  exact (mapAttrs_rel _ (Context_holds_rel lvl sink) a _ b eq_refl).
Qed.


(** The loop of [Record.Attrs] with the callback of [Handle], which never
    stops the iteration, is the loop of [mapAttrs]. *)
Lemma rangeAttrs_mapAttr {T : Type} {W : zlogWriter T}
      (a : list slog.Attr) (evt : T) :
  slog.rangeAttrs (fun attr e => (mapAttr e attr, true)) a evt
  = mapAttrs evt a.
Proof.
  revert evt. induction a as [|attr a IH]; intros evt; cbn.
  - now rewrite mapAttrs_nil.
  - now rewrite IH, mapAttrs_cons.
Qed.

(** ** Empty groups *)


(** ** Handling a record *)

Section HandleProperties.
Context {G : Globals}.

Lemma write_closed (t : list Field) (key : string) (v : FieldValue) :
  write (mkBuilder t []) key v = mkBuilder (t ++ [(key, v)]) [].
Proof. reflexivity. Qed.

(** Two writes that follow the closing of all groups land at top level. *)
Lemma writes_after_closeGroup_all (b : Builder) (k1 k2 : string)
      (v1 v2 : FieldValue) :
  write (write (Builder_closeGroup b (-1)) k1 v1) k2 v2
  = mkBuilder (top (Builder_closeGroup b (-1)) ++ [(k1, v1); (k2, v2)]) [].
Proof.
  pose proof (closeGroup_all b) as Hc.
  destruct (Builder_closeGroup b (-1)) as [t op]. cbn in Hc. subst op.
  rewrite !write_closed, <- app_assoc. reflexivity.
Qed.

(** What [Handle] does on a store that holds the handler and its options:
    it returns a nil error, leaves the cells alone, and emits the event it
    built if the mapped level of the record reaches the level of the active
    logger. *)
Lemma Handle_spec (s : St) (h : ptr) (hv : SlogHandler)
      (o : SlogHandlerOptions) (rec : slog.Record_) :
  nth_error (handlers s) h = Some hv ->
  nth_error (options s) (opts hv) = Some o ->
  Handle h rec s
  = Some (None,
          mkStore (handlers s) (options s)
                  (output s ++
                   if (Level_int (zerologLevel (slog.RecLevel rec))
                       >=? Level_int (level (activeLogger hv o)))%Z
                   then [(w (activeLogger hv o),
                          mkEntry (zerologLevel (slog.RecLevel rec))
                                  (handledBody (activeLogger hv o) o rec))]
                   else [])).
Proof.
  intros Hh Ho. unfold Handle, bind, loadHandler, loadOptions, emit, ret.
  rewrite Hh, Ho. fold (activeLogger hv o).
  unfold slog.Attrs. rewrite rangeAttrs_mapAttr. unfold WithLevel.
  unfold handledBody, sourceFields.
  destruct (Level_int (zerologLevel (slog.RecLevel rec))
            >=? Level_int (level (activeLogger hv o)))%Z.
  - rewrite mapAttrs_event.
    destruct (AddSource o && (slog.PC rec >? 0)%Z).
    + destruct (CallersFrame (slog.PC rec)) as [file line].
      cbn [Str Event_closeGroup Time Event_zlogWriter Event_write Msg
           evLevel evW buf].
      rewrite writes_after_closeGroup_all, writes_app. reflexivity.
    + cbn [Event_closeGroup Time Event_zlogWriter Event_write Msg
           evLevel evW buf].
      rewrite writes_after_closeGroup_all, app_nil_r. reflexivity.
  - rewrite mapAttrs_nil_event.
    destruct (AddSource o && (slog.PC rec >? 0)%Z);
      [destruct (CallersFrame (slog.PC rec)) as [file line]|];
      cbn; rewrite app_nil_r; reflexivity.
Qed.

(** C5.  With the explicit minimum Warn+1, a record at level Warn is not
    enabled, and [Handle], invoked all the same, returns a nil error and
    appends exactly one record, at back-end level Warn, to what the sink of
    the bound logger has received. *)
Theorem Handle_below_explicit_minimum (s : St) (h : ptr) (hv : SlogHandler)
        (o : SlogHandlerOptions) (rec : slog.Record_) :
  nth_error (handlers s) h = Some hv ->
  nth_error (options s) (opts hv) = Some o ->
  OptLevel o = Some (slog.LevelWarn + 1) ->
  slog.RecLevel rec = slog.LevelWarn ->
  Enabled h (slog.RecLevel rec) s = Some (false, s)
  /\ exists body,
      Handle h rec s
      = Some (None,
              mkStore (handlers s) (options s)
                      (output s ++ [(w (logger hv), mkEntry WarnLevel body)])).
Proof.
  intros Hh Ho Hm Hl. split.
  - unfold Enabled, bind, loadHandler, loadOptions.
    rewrite Hh, Ho, Hm, Hl. reflexivity.
  - rewrite (Handle_spec s h hv o rec Hh Ho).
    unfold activeLogger. rewrite Hm, Hl. cbn.
    eexists. reflexivity.
Qed.


End HandleProperties.

Lemma Handle_below_explicit_minimum_witness :
  Enabled 0%nat slog.LevelWarn s_explicit = Some (false, s_explicit)
  /\ exists body,
      Handle (G := G0) 0%nat rec_warn s_explicit
      = Some (None,
              mkStore (handlers s_explicit) (options s_explicit)
                      [(0%nat, mkEntry WarnLevel body)]).
Proof.
  exact (Handle_below_explicit_minimum (G := G0) s_explicit 0%nat _ _ rec_warn
                                       eq_refl eq_refl eq_refl eq_refl).
Defined.


(** The record of the example, as the sink receives it. *)
Example Handle_grouped_example :
  Handle (G := G0) 0%nat rec_warn s_grouped
  = Some (None,
          mkStore (handlers s_grouped) (options s_grouped)
                  [(0%nat,
                    mkEntry WarnLevel
                            (mkBuilder
                               [("attr", FStr "the attr");
                                ("testgroup", FObject [("n", FInt64 12)]);
                                ("time", FTime 1700000000);
                                ("message", FStr "foobar")]
                               []))]).
Proof. vm_compute. reflexivity. Qed.

(** ** Marshal failures *)

(** C6.  When the probe reaches the JSON marshaler (the value is none of
    the address types, not an error and not a stringer) and [MarshalJSON]
    returns an error, the dispatcher writes the string ["!ERROR:"] followed
    by the error's message; on success it splices the returned bytes with
    [RawJSON].  The same holds for [MarshalText] when the value has no JSON
    marshaler, a success being written as a string.  The failure is not
    propagated: the attributes that follow are still written to the target
    that received the fallback string, and [Handle] on a record carrying
    such an attribute returns a nil error and emits the record if its level
    is enabled on the active logger. *)
Theorem marshal_failure_fallback {T : Type} {W : zlogWriter T}
        (target : T) (key : string) (v : any) (rest : list slog.Attr) :
  dynType v = DynOther -> asError v = None -> asStringer v = None ->
  (forall txt e,
      asJSONMarshaler v = Some (txt, Some e) ->
      mapAttr target (slog.mkAttr key (slog.AnyValue v))
      = Str target key ("!ERROR:" ++ e)%string
      /\ mapAttrs target (slog.mkAttr key (slog.AnyValue v) :: rest)
         = mapAttrs (Str target key ("!ERROR:" ++ e)%string) rest)
  /\ (forall txt,
         asJSONMarshaler v = Some (txt, None) ->
         mapAttr target (slog.mkAttr key (slog.AnyValue v))
         = RawJSON target key txt)
  /\ (forall txt e,
         asJSONMarshaler v = None -> asTextMarshaler v = Some (txt, Some e) ->
         mapAttr target (slog.mkAttr key (slog.AnyValue v))
         = Str target key ("!ERROR:" ++ e)%string
         /\ mapAttrs target (slog.mkAttr key (slog.AnyValue v) :: rest)
            = mapAttrs (Str target key ("!ERROR:" ++ e)%string) rest)
  /\ (forall txt,
         asJSONMarshaler v = None -> asTextMarshaler v = Some (txt, None) ->
         mapAttr target (slog.mkAttr key (slog.AnyValue v))
         = Str target key (string_of_list_byte txt))
  /\ (forall (G : Globals) (s : St) (h : ptr) (hv : SlogHandler)
             (o : SlogHandlerOptions) (rec : slog.Record_),
         nth_error (handlers s) h = Some hv ->
         nth_error (options s) (opts hv) = Some o ->
         In (slog.mkAttr key (slog.AnyValue v)) (slog.attrs rec) ->
         exists emitted,
           Handle h rec s
           = Some (None,
                   mkStore (handlers s) (options s) (output s ++ emitted))
           /\ ((Level_int (zerologLevel (slog.RecLevel rec))
                >=? Level_int (level (activeLogger hv o)))%Z = true ->
               exists e, emitted = [(w (activeLogger hv o), e)])).
Proof.
  intros Hd He Hs.
  assert (Hm : mapAttr target (slog.mkAttr key (slog.AnyValue v))
               = match asJSONMarshaler v with
                 | Some (txt, None) => RawJSON target key txt
                 | Some (_, Some e) => Str target key ("!ERROR:" ++ e)%string
                 | None =>
                     match asTextMarshaler v with
                     | Some (txt, None) =>
                         Str target key (string_of_list_byte txt)
                     | Some (_, Some e) =>
                         Str target key ("!ERROR:" ++ e)%string
                     | None => Interface target key v
                     end
                 end).
  { rewrite mapAttr_any. unfold mapAttrAny. rewrite Hd, He, Hs.
    destruct (asJSONMarshaler v) as [[txt [e|]]|]; reflexivity. }
  split; [|split; [|split; [|split]]].
  - intros txt e H. rewrite mapAttrs_cons, Hm, H. split; reflexivity.
  - intros txt H. rewrite Hm, H. reflexivity.
  - intros txt e HJ H. rewrite mapAttrs_cons, Hm, HJ, H. split; reflexivity.
  - intros txt HJ H. rewrite Hm, HJ, H. reflexivity.
  - intros G s h hv o rec Hh Ho _. eexists.
    split; [apply (Handle_spec s h hv o rec Hh Ho)|].
    intros ->. eexists. reflexivity.
Qed.

Lemma marshal_failure_fallback_witness :
  mapAttr (W := Recorder) []
          (slog.mkAttr "json-err" (slog.AnyValue (v_jsoner (Some "failure"))))
  = [CallStr "json-err" "!ERROR:failure"]
  /\ mapAttr (W := Recorder) []
             (slog.mkAttr "marshaller-err"
                          (slog.AnyValue (v_marshaller (Some "failure"))))
     = [CallStr "marshaller-err" "!ERROR:failure"].
Proof.
  split.
  - exact (proj1 (proj1 (marshal_failure_fallback
                           (W := Recorder) [] "json-err"
                           (v_jsoner (Some "failure")) []
                           eq_refl eq_refl eq_refl)
                        jsoner_bytes "failure" eq_refl)).
  - exact (proj1 (proj1 (proj2 (proj2 (marshal_failure_fallback
                                         (W := Recorder) [] "marshaller-err"
                                         (v_marshaller (Some "failure")) []
                                         eq_refl eq_refl eq_refl)))
                        (list_byte_of_string "marshaller") "failure"
                        eq_refl eq_refl)).
Defined.

(** ** Derived handlers *)

Lemma nth_error_snoc_old {A : Type} (xs : list A) (x : A) (p : nat) :
  (p < List.length xs)%nat -> nth_error (xs ++ [x]) p = nth_error xs p.
Proof. intros H. now apply nth_error_app1. Qed.

Lemma nth_error_snoc_new {A : Type} (xs : list A) (x : A) :
  nth_error (xs ++ [x]) (List.length xs) = Some x.
Proof. rewrite nth_error_app2, Nat.sub_diag by lia. reflexivity. Qed.

(** C8.  [WithAttrs] and [WithGroup] allocate a new handler and write to no
    existing cell: the receiver and every other handler, the options and
    the sinks are as before.  The new handler holds the receiver's options
    address; its logger has the receiver's sink and level, and as context
    the receiver's context followed by the fields of the attributes, or with
    the named group opened on it.  The receiver can root further
    derivations, which yield what they would have yielded before. *)
Theorem With_derives_new_handler (s : St) (h : ptr) (hv : SlogHandler)
        (a : list slog.Attr) (name : string) :
  nth_error (handlers s) h = Some hv ->
  let withAttrs :=
    mkHandler (opts hv)
              (mkLogger (w (logger hv)) (level (logger hv))
                        (writes (context (logger hv)) (fieldsOf a))) in
  let withGroup :=
    mkHandler (opts hv)
              (mkLogger (w (logger hv)) (level (logger hv))
                        (Builder_openGroup (context (logger hv)) name)) in
  WithAttrs h a s
  = Some (List.length (handlers s),
          mkStore (handlers s ++ [withAttrs]) (options s) (output s))
  /\ WithGroup h name s
     = Some (List.length (handlers s),
             mkStore (handlers s ++ [withGroup]) (options s) (output s))
  /\ forall hv', hv' = withAttrs \/ hv' = withGroup ->
       let s' := mkStore (handlers s ++ [hv']) (options s) (output s) in
       List.length (handlers s) <> h
       /\ nth_error (handlers s') h = Some hv
       /\ (forall p, (p < List.length (handlers s))%nat ->
                     nth_error (handlers s') p = nth_error (handlers s) p)
       /\ nth_error (handlers s') (List.length (handlers s)) = Some hv'
       /\ opts hv' = opts hv
       /\ (forall a' p' s'',
              WithAttrs h a' s' = Some (p', s'') ->
              exists p s1,
                WithAttrs h a' s = Some (p, s1)
                /\ nth_error (handlers s'') p' = nth_error (handlers s1) p)
       /\ (forall name' p' s'',
              WithGroup h name' s' = Some (p', s'') ->
              exists p s1,
                WithGroup h name' s = Some (p, s1)
                /\ nth_error (handlers s'') p' = nth_error (handlers s1) p).
Proof.
  intros Hh withAttrs withGroup.
  assert (Hlt : (h < List.length (handlers s))%nat).
  { apply nth_error_Some. congruence. }
  assert (HA : forall (s0 : St) a0,
             nth_error (handlers s0) h = Some hv ->
             WithAttrs h a0 s0
             = Some (List.length (handlers s0),
                     mkStore (handlers s0
                              ++ [mkHandler (opts hv)
                                    (mkLogger (w (logger hv))
                                       (level (logger hv))
                                       (writes (context (logger hv))
                                               (fieldsOf a0)))])
                             (options s0) (output s0))).
  { intros s0 a0 H0. unfold WithAttrs, bind, loadHandler, newHandler.
    rewrite H0, mapAttrs_context. reflexivity. }
  assert (HG : forall (s0 : St) n0,
             nth_error (handlers s0) h = Some hv ->
             WithGroup h n0 s0
             = Some (List.length (handlers s0),
                     mkStore (handlers s0
                              ++ [mkHandler (opts hv)
                                    (mkLogger (w (logger hv))
                                       (level (logger hv))
                                       (Builder_openGroup
                                          (context (logger hv)) n0))])
                             (options s0) (output s0))).
  { intros s0 n0 H0. unfold WithGroup, bind, loadHandler, newHandler.
    rewrite H0. reflexivity. }
  split; [apply HA, Hh|]. split; [apply HG, Hh|].
  intros hv' Hhv' s'.
  assert (Hold : nth_error (handlers s') h = Some hv).
  { unfold s'. cbn [handlers]. rewrite nth_error_snoc_old; assumption. }
  split; [lia|]. split; [exact Hold|].
  split; [intros p Hp; unfold s'; cbn [handlers];
          now apply nth_error_snoc_old|].
  split; [apply nth_error_snoc_new|].
  split; [destruct Hhv'; subst hv'; reflexivity|].
  split.
  - intros a' p' s'' H'. rewrite (HA s' a' Hold) in H'.
    injection H' as <- <-. do 2 eexists. split; [apply HA, Hh|].
    cbn [handlers]. rewrite !nth_error_snoc_new. reflexivity.
  - intros name' p' s'' H'. rewrite (HG s' name' Hold) in H'.
    injection H' as <- <-. do 2 eexists. split; [apply HG, Hh|].
    cbn [handlers]. rewrite !nth_error_snoc_new. reflexivity.
Qed.

Lemma With_derives_new_handler_witness :
  WithAttrs 0%nat [slog.mkAttr "attr" (slog.StringValue "the attr")] s_default
  = Some (1%nat,
          mkStore [mkHandler 0%nat (mkLogger 0%nat InfoLevel (mkBuilder [] []));
                   mkHandler 0%nat
                             (mkLogger 0%nat InfoLevel
                                       (mkBuilder [("attr", FStr "the attr")]
                                                  []))]
                  [mkOptions false None] [])
  /\ WithGroup 0%nat "testgroup" s_default
     = Some (1%nat,
             mkStore [mkHandler 0%nat
                                (mkLogger 0%nat InfoLevel (mkBuilder [] []));
                      mkHandler 0%nat
                                (mkLogger 0%nat InfoLevel
                                          (mkBuilder [] [("testgroup", [])]))]
                     [mkOptions false None] []).
Proof.
  pose proof (With_derives_new_handler
                s_default 0%nat _
                [slog.mkAttr "attr" (slog.StringValue "the attr")]
                "testgroup" eq_refl) as H.
  split; [exact (proj1 H) | exact (proj1 (proj2 H))].
Defined.

(** ** The two adapters agree *)

Section ZslogDispatch.
Context {T : Type} {W : zslog.zlogWriter T}.

Lemma zslog_mapAttrs_nil (target : T) : zslog.mapAttrs target [] = target.
Proof. unfold zslog.mapAttrs. now simp mapAttrX. Qed.

Lemma zslog_mapAttrs_cons (target : T) (attr : slog.Attr)
      (a : list slog.Attr) :
  zslog.mapAttrs target (attr :: a)
  = zslog.mapAttrs (zslog.mapAttr target attr) a.
Proof. unfold zslog.mapAttrs, zslog.mapAttr. now simp mapAttrX. Qed.

Lemma zslog_mapAttr_unfold (target : T) (a : slog.Attr) :
  zslog.mapAttr target a =
  match slog.Resolve (slog.AttrValue a) with
  | slog.GroupValue g =>
      zslog.Grouped target (slog.Key a) (fun t => zslog.mapAttrs t g)
  | slog.BoolValue b => zslog.Bool target (slog.Key a) b
  | slog.DurationValue d => zslog.Dur target (slog.Key a) d
  | slog.Float64Value f => zslog.Float64 target (slog.Key a) f
  | slog.Int64Value i => zslog.Int64 target (slog.Key a) i
  | slog.StringValue s => zslog.Str target (slog.Key a) s
  | slog.TimeValue t => zslog.Time target (slog.Key a) t
  | slog.Uint64Value u => zslog.Uint64 target (slog.Key a) u
  | slog.AnyValue v => zslog.mapAttrAny target (slog.Key a) v
  | slog.LogValuerValue v n =>
      zslog.mapAttrAny target (slog.Key a)
                       (slog.Any (slog.LogValuerValue v n))
  end.
Proof.
  unfold zslog.mapAttr. rewrite zslog.mapAttrX_equation_1.
  generalize (inspect (slog.Resolve (slog.AttrValue a))).
  intros [y Hy]. destruct y; simp mapAttrX; rewrite Hy; reflexivity.
Qed.

(** The dispatcher of [zslog] is the dispatcher of package [zerolog] on the
    same writer. *)
Lemma zslog_mapAttrX (x : slog.Attr + list slog.Attr) :
  forall target : T,
    zslog.mapAttrX x target = mapAttrX (W := ofZslog W) x target.
Proof.
  induction x as [| attr a IHattr IHa | a IHg] using dispatch_ind;
    intros target.
  - change (zslog.mapAttrs target [] = mapAttrs (W := ofZslog W) target []).
    now rewrite zslog_mapAttrs_nil, mapAttrs_nil.
  - change (zslog.mapAttrs target (attr :: a)
            = mapAttrs (W := ofZslog W) target (attr :: a)).
    rewrite zslog_mapAttrs_cons, mapAttrs_cons.
    unfold zslog.mapAttrs, zslog.mapAttr, mapAttrs, mapAttr.
    now rewrite IHattr, IHa.
  - change (zslog.mapAttr target a = mapAttr (W := ofZslog W) target a).
    rewrite zslog_mapAttr_unfold, mapAttr_unfold.
    destruct (slog.Resolve (slog.AttrValue a)) eqn:E; try reflexivity.
    cbn [grouped ofZslog]. f_equal.
    apply FunctionalExtensionality.functional_extensionality.
    intros t. apply (IHg g eq_refl).
Qed.

End ZslogDispatch.

Lemma zslog_mapAttrs_event (e : Event) (a : list slog.Attr) :
  zslog.mapAttrs (W := zslog.Event_zlogWriter) e a = mapAttrs e a.
Proof. apply (zslog_mapAttrX (W := zslog.Event_zlogWriter) (inr a)). Qed.

Lemma zslog_mapAttr_event (e : Event) (a : slog.Attr) :
  zslog.mapAttr (W := zslog.Event_zlogWriter) e a = mapAttr e a.
Proof. apply (zslog_mapAttrX (W := zslog.Event_zlogWriter) (inl a)). Qed.

Lemma zslog_mapAttrs_context (c : Context) (a : list slog.Attr) :
  zslog.mapAttrs (W := zslog.Context_zlogWriter) c a = mapAttrs c a.
Proof. apply (zslog_mapAttrX (W := zslog.Context_zlogWriter) (inr a)). Qed.

Lemma zslog_rangeAttrs (a : list slog.Attr) (evt : Event) :
  slog.rangeAttrs
    (fun attr e => (zslog.mapAttr (W := zslog.Event_zlogWriter) e attr, true))
    a evt
  = slog.rangeAttrs (fun attr e => (mapAttr e attr, true)) a evt.
Proof.
  revert evt. induction a as [|attr a IH]; intros evt; cbn; [reflexivity|].
  now rewrite zslog_mapAttr_event, IH.
Qed.

(** The severity ladders of the two files are the same function. *)
Lemma zslog_zerologLevel (lvl : slog.Level) :
  zslog.zerologLevel lvl = zerologLevel lvl.
Proof. reflexivity. Qed.

Section Agreement.
Context {G : Globals}.

Lemma toZslog_handlers (s : St) (p : ptr) :
  nth_error (handlers (toZslogStore s)) p
  = option_map toZslogHandler (nth_error (handlers s) p).
Proof. apply nth_error_map. Qed.

Lemma toZslog_options (s : St) (p : ptr) :
  nth_error (options (toZslogStore s)) p
  = option_map toZslogOptions (nth_error (options s) p).
Proof. apply nth_error_map. Qed.

Lemma toZslog_newHandler (s : St) (hv : SlogHandler) :
  newHandler (toZslogHandler hv) (toZslogStore s)
  = toZslogResult (newHandler hv s).
Proof.
  unfold newHandler, toZslogResult, toZslogStore. cbn [handlers options output].
  rewrite length_map, map_app. reflexivity.
Qed.

Lemma toZslog_newOptions (s : St) (o : SlogHandlerOptions) :
  newOptions (toZslogOptions o) (toZslogStore s)
  = toZslogResult (newOptions o s).
Proof.
  unfold newOptions, toZslogResult, toZslogStore. cbn [handlers options output].
  rewrite length_map, map_app. reflexivity.
Qed.

(** Each call answers the same on both adapters and leaves equally
    configured stores. *)
Lemma step_agree (op : Op) (s : St) :
  zslog_step op (toZslogStore s) = toZslogResult (step op s).
Proof.
  destruct op as [lg o | h lvl | h rec | h a | h name].
  - (* NewHandler *)
    unfold zslog_step, step, zslog.NewHandler, NewSlogHandler, bind, ret,
      loadOptions, newOptions, newHandler, toZslogResult, toZslogStore.
    destruct o as [p|]; simpl.
    + rewrite nth_error_map.
      destruct (nth_error (options s) p) as [ov|]; [|reflexivity].
      simpl. rewrite !map_app, !length_map. reflexivity.
    + rewrite (nth_error_snoc_new (options s)).
      rewrite (nth_error_snoc_new (map toZslogOptions (options s))).
      simpl. rewrite !map_app, !length_app, !length_map. reflexivity.
  - (* Enabled *)
    unfold zslog_step, step, zslog.Enabled, Enabled, bind, ret,
      loadHandler, loadOptions.
    rewrite toZslog_handlers.
    destruct (nth_error (handlers s) h) as [hv|]; [|reflexivity].
    cbn [option_map toZslogHandler zslog.opts]. rewrite toZslog_options.
    destruct (nth_error (options s) (opts hv)) as [ov|]; [|reflexivity].
    cbn [option_map toZslogOptions zslog.OptLevel].
    destruct (OptLevel ov); reflexivity.
  - (* Handle *)
    unfold zslog_step, step, zslog.Handle, Handle, bind, ret,
      loadHandler, loadOptions.
    rewrite toZslog_handlers.
    destruct (nth_error (handlers s) h) as [hv|]; [|reflexivity].
    cbn [option_map toZslogHandler zslog.opts]. rewrite toZslog_options.
    destruct (nth_error (options s) (opts hv)) as [ov|]; [|reflexivity].
    cbn [option_map toZslogOptions zslog.OptLevel zslog.AddSource
         zslog.logger].
    unfold slog.Attrs. rewrite zslog_rangeAttrs. reflexivity.
  - (* WithAttrs *)
    unfold zslog_step, step, zslog.WithAttrs, WithAttrs, bind, ret, loadHandler.
    rewrite toZslog_handlers.
    destruct (nth_error (handlers s) h) as [hv|]; [|reflexivity].
    cbn [option_map toZslogHandler zslog.opts zslog.logger].
    rewrite zslog_mapAttrs_context.
    exact (f_equal (fun r => match r with
                             | Some (p0, s') => Some (AnsHandler p0, s')
                             | None => None
                             end)
                   (toZslog_newHandler s (mkHandler (opts hv) _))).
  - (* WithGroup *)
    unfold zslog_step, step, zslog.WithGroup, WithGroup, bind, ret, loadHandler.
    rewrite toZslog_handlers.
    destruct (nth_error (handlers s) h) as [hv|]; [|reflexivity].
    cbn [option_map toZslogHandler zslog.opts zslog.logger].
    exact (f_equal (fun r => match r with
                             | Some (p0, s') => Some (AnsHandler p0, s')
                             | None => None
                             end)
                   (toZslog_newHandler s (mkHandler (opts hv) _))).
Qed.

Lemma run_agree (ops : list Op) :
  forall s : St, zslog_run ops (toZslogStore s) = toZslogResult (run ops s).
Proof.
  induction ops as [|op rest IH]; intros s; [reflexivity|].
  cbn [zslog_run run]. unfold bind at 1 3.
  rewrite step_agree.
  destruct (step op s) as [[a s1]|]; [|reflexivity].
  cbn [toZslogResult]. unfold bind. rewrite IH.
  destruct (run rest s1) as [[r s2]|]; reflexivity.
Qed.

End Agreement.

(** C9.  On equally configured stores, every sequence of constructor,
    [Enabled], [Handle], [WithAttrs] and [WithGroup] calls gives the same
    answers on [zslog.Handler] as on [SlogHandler], fails on the one exactly
    when it fails on the other, and leaves equally configured stores, whose
    sinks have received the same records. *)
Theorem adapters_agree {G : Globals} (ops : list Op) (s : St) :
  zslog_run ops (toZslogStore s) = toZslogResult (run ops s)
  /\ match run ops s, zslog_run ops (toZslogStore s) with
     | Some (r1, s1), Some (r2, s2) => r1 = r2 /\ output s1 = output s2
     | None, None => True
     | _, _ => False
     end.
Proof.
  pose proof (run_agree ops s) as H. split; [exact H|].
  rewrite H. destruct (run ops s) as [[r1 s1]|]; cbn; auto.
Qed.

(** The calls of the example, on either adapter: three handlers, Warn
    enabled, and one record from each derived handler. *)
Example run_example :
  option_map (fun r => (fst r, output (snd r)))
             (run (G := G0) ops_example s_empty)
  = Some ([AnsHandler 0%nat; AnsHandler 1%nat; AnsHandler 2%nat;
           AnsBool true; AnsError None; AnsError None],
          [(0%nat,
            mkEntry WarnLevel
                    (mkBuilder [("attr", FStr "the attr"); ("n", FInt64 12);
                                ("time", FTime 1700000000);
                                ("message", FStr "foobar")] []));
           (0%nat,
            mkEntry WarnLevel
                    (mkBuilder [("testgroup", FObject [("n", FInt64 12)]);
                                ("time", FTime 1700000000);
                                ("message", FStr "foobar")] []))]).
Proof. vm_compute. reflexivity. Qed.

Example zslog_run_example :
  option_map (fun r => (fst r, output (snd r)))
             (zslog_run (G := G0) ops_example (toZslogStore s_empty))
  = option_map (fun r => (fst r, output (snd r)))
               (run (G := G0) ops_example s_empty).
Proof. vm_compute. reflexivity. Qed.

(** ** The expectations of the test file, on the model *)

(** [TestZerolog_Group]: the handlers are allocated in turn, Error is
    enabled and Debug is not, and the record has the bound attribute at top
    level, the second one in [testgroup], the attributes of the record in
    [subgroup], and the timestamp and the message at top level.  The empty
    group of [attrs] is absent: [Record.AddAttrs] dropped it before the
    handler saw the record. *)
Example TestZerolog_Group :
  option_map (fun r => (fst r, output (snd r)))
             (run (G := G0) test_group_ops s_empty)
  = Some ([AnsHandler 0%nat; AnsHandler 1%nat; AnsHandler 2%nat;
           AnsHandler 3%nat; AnsHandler 4%nat;
           AnsBool true; AnsBool false; AnsError None],
          [(0%nat,
            mkEntry WarnLevel
                    (mkBuilder
                       [("attr", FStr "the attr");
                        ("testgroup",
                         FObject [("attr", FStr "the attr");
                                  ("subgroup", FObject test_exp)]);
                        ("time", FTime test_now);
                        ("message", FStr "foobar")]
                       []))]).
Proof. vm_compute. reflexivity. Qed.

(** [TestZerolog_Levels] and [TestZerolog_Levels_NoOption], for every pair
    of rows of the table. *)
Example TestZerolog_Levels :
  forallb (fun lvl => forallb (test_levels_row true lvl) test_levels)
          test_levels = true
  /\ forallb (fun lvl => forallb (test_levels_row false lvl) test_levels)
             test_levels = true.
Proof. split; vm_compute; reflexivity. Qed.

(** The fields of the attributes of the test file, the empty group included
    when it reaches the dispatcher. *)
Example test_attrs_fields :
  fieldsOf (filter (fun x => negb (slog.isEmptyGroup (slog.AttrValue x)))
                   test_attrs) = test_exp
  /\ In ("empty", FObject []) (fieldsOf test_attrs).
Proof. split; vm_compute; auto 20. Qed.

(** * Further properties of the adapter *)

(** ** The severity ladder preserves the order *)

(** X1.  [zerologLevel] is monotone, and it reflects the strict order: a
    record mapped to a strictly lower back-end level has a strictly lower
    front-end level. *)
Theorem zerologLevel_order (a b : slog.Level) :
  (a <= b -> Level_int (zerologLevel a) <= Level_int (zerologLevel b))
  /\ (Level_int (zerologLevel a) < Level_int (zerologLevel b) -> a < b).
Proof.
  split; intros H.
  - now apply zerologLevel_monotone.
  - destruct (Z.lt_ge_cases a b) as [Hlt|Hge]; [exact Hlt|].
    pose proof (zerologLevel_monotone b a Hge). lia.
Qed.

Lemma zerologLevel_order_witness :
  Level_int (zerologLevel slog.LevelInfo)
  <= Level_int (zerologLevel (slog.LevelWarn + 1))
  /\ slog.LevelDebug < slog.LevelError.
Proof.
  split.
  - apply (proj1 (zerologLevel_order slog.LevelInfo (slog.LevelWarn + 1))).
    unfold slog.LevelInfo, slog.LevelWarn. lia.
  - apply (proj2 (zerologLevel_order slog.LevelDebug slog.LevelError)).
    cbn. lia.
Defined.

(** ** The loop of the dispatcher *)

Lemma mapAttrs_app_any {T : Type} {W : zlogWriter T}
      (a b : list slog.Attr) (target : T) :
  mapAttrs target (a ++ b) = mapAttrs (mapAttrs target a) b.
Proof.
  revert target. induction a as [|attr a IH]; intros target; cbn [app].
  - now rewrite mapAttrs_nil.
  - rewrite !mapAttrs_cons. apply IH.
Qed.

(** X2.  On every writer, writing two lists of attributes one after the
    other is writing their concatenation, and writing no attribute leaves
    the target as it is. *)
Theorem mapAttrs_concatenation {T : Type} {W : zlogWriter T}
        (a b : list slog.Attr) (target : T) :
  mapAttrs target (a ++ b) = mapAttrs (mapAttrs target a) b
  /\ mapAttrs target [] = target.
Proof. split; [apply mapAttrs_app_any | apply mapAttrs_nil]. Qed.

(** On the recording writer, the type switch makes one call, with the key
    it was given. *)
Lemma mapAttrAny_one_call (t : list Call) (key : string) (v : any) :
  exists c, mapAttrAny (W := Recorder) t key v = t ++ [c] /\ callKey c = key.
Proof.
  unfold mapAttrAny.
  destruct (dynType v); try (eexists; split; reflexivity).
  destruct (asError v); try (eexists; split; reflexivity).
  destruct (asStringer v); try (eexists; split; reflexivity).
  destruct (asJSONMarshaler v) as [[txt [e|]]|];
    try (eexists; split; reflexivity).
  destruct (asTextMarshaler v) as [[txt [e|]]|];
    eexists; split; reflexivity.
Qed.

Lemma mapAttr_one_call (t : list Call) (a : slog.Attr) :
  exists c, mapAttr (W := Recorder) t a = t ++ [c] /\ callKey c = slog.Key a.
Proof.
  rewrite mapAttr_unfold.
  destruct (slog.Resolve (slog.AttrValue a));
    try (eexists; split; reflexivity); apply mapAttrAny_one_call.
Qed.

(** X3.  The dispatcher makes exactly one call on the writer for each
    attribute of the list, in the order of the list and with the key of the
    attribute: no attribute is skipped or written twice, whatever its kind
    and its key. *)
Theorem mapAttrs_one_call_per_attribute (a : list slog.Attr)
        (t : list Call) :
  exists calls,
    mapAttrs (W := Recorder) t a = t ++ calls
    /\ map callKey calls = map slog.Key a.
Proof.
  revert t. induction a as [|attr a IH]; intros t.
  - exists []. rewrite mapAttrs_nil, app_nil_r. split; reflexivity.
  - rewrite mapAttrs_cons.
    destruct (mapAttr_one_call t attr) as [c [Hc Hk]]. rewrite Hc.
    destruct (IH (t ++ [c])) as [calls [Hcalls Hkeys]].
    exists (c :: calls). rewrite Hcalls, <- app_assoc. split; [reflexivity|].
    cbn [map]. now rewrite Hk, Hkeys.
Qed.

(** ** Lazy values inside lists and groups *)

Lemma mapAttr_resolved {T : Type} {W : zlogWriter T}
      (target : T) (a : slog.Attr) :
  mapAttr target (resolved a) = mapAttr target a.
Proof.
  destruct a as [k v]. unfold resolved. cbn [slog.Key slog.AttrValue].
  apply mapAttr_same_resolution, Resolve_idempotent.
Qed.

Lemma mapAttrs_resolved {T : Type} {W : zlogWriter T}
      (a : list slog.Attr) (target : T) :
  mapAttrs target (map resolved a) = mapAttrs target a.
Proof.
  revert target. induction a as [|attr a IH]; intros target; [reflexivity|].
  cbn [map]. rewrite !mapAttrs_cons, mapAttr_resolved. apply IH.
Qed.

(** X4.  The dispatcher resolves the values of a list of attributes and of
    the children of a group when it writes them: on every writer, a list or
    a group whose attribute values were resolved beforehand is written as
    the original. *)
Theorem children_resolved_when_written {T : Type} {W : zlogWriter T}
        (target : T) (key : string) (g : list slog.Attr) :
  mapAttrs target (map resolved g) = mapAttrs target g
  /\ mapAttr target (slog.mkAttr key (slog.GroupValue (map resolved g)))
     = mapAttr target (slog.mkAttr key (slog.GroupValue g)).
Proof.
  split; [apply mapAttrs_resolved|].
  rewrite !mapAttr_unfold. cbn [slog.AttrValue slog.Key].
  rewrite !Resolve_shallow by reflexivity.
  f_equal. apply functional_extensionality. intros t.
  apply mapAttrs_resolved.
Qed.

(** ** The two dispatchers *)

(** X5.  The dispatcher and the severity ladder of [zslog/slog.go] are those
    of [slog.go]: on every writer, [mapAttrs], [mapAttr] and [mapAttrAny]
    return the same target, and [zerologLevel] the same level. *)
Theorem zslog_same_dispatcher {T : Type} (W : zslog.zlogWriter T)
        (target : T) (a : list slog.Attr) (attr : slog.Attr)
        (key : string) (v : any) (lvl : slog.Level) :
  zslog.mapAttrs target a = mapAttrs (W := ofZslog W) target a
  /\ zslog.mapAttr target attr = mapAttr (W := ofZslog W) target attr
  /\ zslog.mapAttrAny target key v = mapAttrAny (W := ofZslog W) target key v
  /\ zslog.zerologLevel lvl = zerologLevel lvl.
Proof.
  split; [apply (zslog_mapAttrX (inr a))|].
  split; [apply (zslog_mapAttrX (inl attr))|].
  split; reflexivity.
Qed.

(** ** The methods on the store *)

Lemma Enabled_spec (s : St) (h : ptr) (hv : SlogHandler)
      (o : SlogHandlerOptions) (lvl : slog.Level) :
  nth_error (handlers s) h = Some hv ->
  nth_error (options s) (opts hv) = Some o ->
  Enabled h lvl s
  = Some (match OptLevel o with
          | Some m => (lvl >=? m)%Z
          | None => (Level_int (zerologLevel lvl)
                     >=? Level_int (GetLevel (logger hv)))%Z
          end, s).
Proof.
  intros Hh Ho. unfold Enabled, bind, loadHandler, loadOptions.
  rewrite Hh, Ho. destruct (OptLevel o); reflexivity.
Qed.

Lemma WithAttrs_spec (s : St) (h : ptr) (hv : SlogHandler)
      (a : list slog.Attr) :
  nth_error (handlers s) h = Some hv ->
  WithAttrs h a s
  = Some (List.length (handlers s),
          mkStore (handlers s
                   ++ [mkHandler (opts hv)
                         (mkLogger (w (logger hv)) (level (logger hv))
                                   (writes (context (logger hv))
                                           (fieldsOf a)))])
                  (options s) (output s)).
Proof.
  intros Hh. unfold WithAttrs, bind, loadHandler, newHandler.
  rewrite Hh, mapAttrs_context. reflexivity.
Qed.

Lemma WithGroup_spec (s : St) (h : ptr) (hv : SlogHandler) (name : string) :
  nth_error (handlers s) h = Some hv ->
  WithGroup h name s
  = Some (List.length (handlers s),
          mkStore (handlers s
                   ++ [mkHandler (opts hv)
                         (mkLogger (w (logger hv)) (level (logger hv))
                                   (Builder_openGroup (context (logger hv))
                                                      name))])
                  (options s) (output s)).
Proof.
  intros Hh. unfold WithGroup, bind, loadHandler, newHandler.
  rewrite Hh. reflexivity.
Qed.

Lemma nth_error_valid {A : Type} (l : list A) (p : nat) (x : A) :
  nth_error l p = Some x -> (p < List.length l)%nat.
Proof. intros H. apply nth_error_Some. congruence. Qed.

Lemma assign_other {A : Type} (l : list A) (p q : nat) (x : A) :
  p <> q -> nth_error (assign p x l) q = nth_error l q.
Proof.
  revert p q. induction l as [|y l IH]; intros p q Hpq; [reflexivity|].
  destruct p as [|p], q as [|q]; cbn; try reflexivity; try congruence.
  apply IH. congruence.
Qed.

Lemma assign_same {A : Type} (l : list A) (p : nat) (x : A) :
  (p < List.length l)%nat -> nth_error (assign p x l) p = Some x.
Proof.
  revert p. induction l as [|y l IH]; intros p Hp; cbn in Hp; [lia|].
  destruct p as [|p]; cbn; [reflexivity|]. apply IH. lia.
Qed.

(** X6.  [NewSlogHandler] with nil options never fails: it allocates a
    handler on the given logger with the default options (no call-site
    capture, no explicit minimum), emits nothing, and the new handler
    answers [Enabled] by the level of the logger. *)
Theorem NewSlogHandler_nil_options (lg : Logger) (s : St)
        (lvl : slog.Level) :
  exists s',
    NewSlogHandler lg None s = Some (List.length (handlers s), s')
    /\ handlers s'
       = handlers s ++ [mkHandler (S (List.length (options s))) lg]
    /\ nth_error (options s') (S (List.length (options s)))
       = Some (mkOptions false None)
    /\ (forall p, (p < List.length (options s))%nat ->
                  nth_error (options s') p = nth_error (options s) p)
    /\ output s' = output s
    /\ Enabled (List.length (handlers s)) lvl s'
       = Some ((Level_int (zerologLevel lvl) >=? Level_int (GetLevel lg))%Z,
               s').
Proof.
  eexists. split.
  - unfold NewSlogHandler, bind, ret, newOptions, loadOptions, newHandler.
    cbn [handlers options output]. rewrite nth_error_snoc_new.
    cbn [handlers options output]. reflexivity.
  - cbn [handlers options output]. split; [now rewrite length_app, Nat.add_1_r|].
    assert (Hnew : nth_error
                     ((options s ++ [mkOptions false None])
                      ++ [mkOptions false None])
                     (S (List.length (options s)))
                   = Some (mkOptions false None)).
    { replace (S (List.length (options s)))
        with (List.length (options s ++ [mkOptions false None]))
        by (rewrite length_app; cbn; lia).
      apply nth_error_snoc_new. }
    split; [exact Hnew|].
    split.
    { intros p Hp. rewrite <- app_assoc. now apply nth_error_app1. }
    split; [reflexivity|].
    rewrite (Enabled_spec _ _ (mkHandler (S (List.length (options s))) lg)
                          (mkOptions false None)).
    + reflexivity.
    + cbn [handlers]. rewrite length_app, Nat.add_1_r.
      replace (S (List.length (options s)))
        with (List.length (options s ++ [mkOptions false None]))
        by (rewrite length_app; cbn; lia).
      rewrite length_app. cbn [List.length]. rewrite Nat.add_1_r.
      apply nth_error_snoc_new.
    + exact Hnew.
Qed.

(** X7.  [NewSlogHandler] copies the options it is given: the handler
    refers to a new cell holding the value the caller's cell had, the
    caller's cell is left as it was, and whatever the caller assigns to its
    own cell afterwards, the handler answers [Enabled] by the options it was
    created with. *)
Theorem NewSlogHandler_copies_options (lg : Logger) (p : ptr)
        (o : SlogHandlerOptions) (s : St) :
  nth_error (options s) p = Some o ->
  exists s',
    NewSlogHandler lg (Some p) s = Some (List.length (handlers s), s')
    /\ nth_error (handlers s') (List.length (handlers s))
       = Some (mkHandler (List.length (options s)) lg)
    /\ List.length (options s) <> p
    /\ nth_error (options s') (List.length (options s)) = Some o
    /\ nth_error (options s') p = Some o
    /\ forall o' lvl,
        Enabled (List.length (handlers s)) lvl (setOptions p o' s')
        = Some (match OptLevel o with
                | Some m => (lvl >=? m)%Z
                | None => (Level_int (zerologLevel lvl)
                           >=? Level_int (GetLevel lg))%Z
                end, setOptions p o' s').
Proof.
  intros Ho. pose proof (nth_error_valid _ _ _ Ho) as Hp.
  eexists. split.
  - unfold NewSlogHandler, bind, ret, newOptions, loadOptions, newHandler.
    rewrite Ho. cbn [handlers options output]. reflexivity.
  - cbn [handlers options output].
    split; [apply nth_error_snoc_new|].
    split; [lia|].
    split; [apply nth_error_snoc_new|].
    split; [rewrite nth_error_app1 by exact Hp; exact Ho|].
    intros o' lvl.
    rewrite (Enabled_spec _ _ (mkHandler (List.length (options s)) lg) o).
    + reflexivity.
    + cbn [setOptions handlers]. apply nth_error_snoc_new.
    + cbn [setOptions options opts].
      rewrite assign_other by lia. apply nth_error_snoc_new.
Qed.

Lemma NewSlogHandler_copies_options_witness :
  exists s',
    NewSlogHandler (mkLogger 0%nat InfoLevel (mkBuilder [] [])) (Some 0%nat)
                   s_explicit
    = Some (1%nat, s')
    /\ Enabled 1%nat slog.LevelWarn
               (setOptions 0%nat (mkOptions true None) s')
       = Some (false, setOptions 0%nat (mkOptions true None) s').
Proof.
  destruct (NewSlogHandler_copies_options
              (mkLogger 0%nat InfoLevel (mkBuilder [] [])) 0%nat
              (mkOptions false (Some (slog.LevelWarn + 1))) s_explicit
              eq_refl) as [s' [H1 [_ [_ [_ [_ H6]]]]]].
  exists s'. split; [exact H1|].
  exact (H6 (mkOptions true None) slog.LevelWarn).
Defined.

(** X8.  [Enabled] is upward closed: a handler that enables a level enables
    every higher level, with or without an explicit minimum. *)
Theorem Enabled_upward_closed (s : St) (h : ptr) (hv : SlogHandler)
        (o : SlogHandlerOptions) (lo hi : slog.Level) :
  nth_error (handlers s) h = Some hv ->
  nth_error (options s) (opts hv) = Some o ->
  lo <= hi ->
  Enabled h lo s = Some (true, s) ->
  Enabled h hi s = Some (true, s).
Proof.
  intros Hh Ho Hle. rewrite !(Enabled_spec s h hv o) by assumption.
  intros H. injection H as H. f_equal. f_equal.
  pose proof (zerologLevel_monotone lo hi Hle).
  destruct (OptLevel o); lia.
Qed.

Lemma Enabled_upward_closed_witness :
  Enabled 0%nat slog.LevelError s_default = Some (true, s_default).
Proof.
  apply (Enabled_upward_closed s_default 0%nat _ _ slog.LevelInfo
                               slog.LevelError eq_refl eq_refl).
  - unfold slog.LevelInfo, slog.LevelError. lia.
  - reflexivity.
Defined.

(** X9.  A handler derived with [WithAttrs] or [WithGroup] answers
    [Enabled] as the handler it was derived from: it shares its options and
    its logger keeps the level. *)
Theorem Enabled_of_derived (s : St) (h : ptr) (hv : SlogHandler)
        (o : SlogHandlerOptions) (a : list slog.Attr) (name : string)
        (lvl : slog.Level) :
  nth_error (handlers s) h = Some hv ->
  nth_error (options s) (opts hv) = Some o ->
  (forall h' s', WithAttrs h a s = Some (h', s') ->
                 option_map fst (Enabled h' lvl s')
                 = option_map fst (Enabled h lvl s))
  /\ (forall h' s', WithGroup h name s = Some (h', s') ->
                    option_map fst (Enabled h' lvl s')
                    = option_map fst (Enabled h lvl s)).
Proof.
  intros Hh Ho. rewrite (Enabled_spec s h hv o lvl Hh Ho).
  split; intros h' s' H.
  - rewrite (WithAttrs_spec s h hv a Hh) in H. injection H as <- <-.
    match goal with
    | |- context [Enabled _ lvl ?s1] =>
        rewrite (Enabled_spec s1 _ _ o lvl
                              (nth_error_snoc_new (handlers s) _) Ho)
    end.
    reflexivity.
  - rewrite (WithGroup_spec s h hv name Hh) in H. injection H as <- <-.
    match goal with
    | |- context [Enabled _ lvl ?s1] =>
        rewrite (Enabled_spec s1 _ _ o lvl
                              (nth_error_snoc_new (handlers s) _) Ho)
    end.
    reflexivity.
Qed.

Lemma Enabled_of_derived_witness :
  option_map fst (Enabled 1%nat slog.LevelDebug
                          (mkStore
                             (handlers s_default
                              ++ [mkHandler 0%nat
                                    (mkLogger 0%nat InfoLevel
                                       (mkBuilder [] [("g", [])]))])
                             (options s_default) []))
  = option_map fst (Enabled 0%nat slog.LevelDebug s_default).
Proof.
  exact (proj2 (Enabled_of_derived s_default 0%nat _ _ [] "g"
                                   slog.LevelDebug eq_refl eq_refl)
               _ _ eq_refl).
Defined.

(** ** Enablement and emission *)

Lemma Level_int_injective (a b : Level) : Level_int a = Level_int b -> a = b.
Proof. destruct a, b; cbn; intros H; try reflexivity; discriminate. Qed.

Lemma activeLogger_sink (hv : SlogHandler) (o : SlogHandlerOptions) :
  w (activeLogger hv o) = w (logger hv)
  /\ context (activeLogger hv o) = context (logger hv).
Proof. unfold activeLogger. destruct (OptLevel o); split; reflexivity. Qed.

Lemma activeLogger_level (hv : SlogHandler) (o : SlogHandlerOptions) :
  level (activeLogger hv o)
  = match OptLevel o with
    | Some m => zerologLevel m
    | None => level (logger hv)
    end.
Proof. unfold activeLogger. destruct (OptLevel o); reflexivity. Qed.

Lemma store_eta (s : St) :
  mkStore (handlers s) (options s) (output s ++ []) = s.
Proof. destruct s. cbn. now rewrite app_nil_r. Qed.

Section Emission.
Context {G : Globals}.

(** X10.  A record whose level [Enabled] accepts is emitted by [Handle]:
    exactly one record, to the sink of the bound logger, at the back-end
    level the ladder gives its level.  Without an explicit minimum the
    converse holds: a record [Enabled] rejects leaves the store as it
    was. *)
Theorem Enabled_implies_emitted (s : St) (h : ptr) (hv : SlogHandler)
        (o : SlogHandlerOptions) (rec : slog.Record_) :
  nth_error (handlers s) h = Some hv ->
  nth_error (options s) (opts hv) = Some o ->
  (Enabled h (slog.RecLevel rec) s = Some (true, s) ->
   exists body,
     Handle h rec s
     = Some (None,
             mkStore (handlers s) (options s)
                     (output s
                      ++ [(w (logger hv),
                           mkEntry (zerologLevel (slog.RecLevel rec)) body)])))
  /\ (OptLevel o = None ->
      Enabled h (slog.RecLevel rec) s = Some (false, s) ->
      Handle h rec s = Some (None, s)).
Proof.
  intros Hh Ho. rewrite (Enabled_spec s h hv o _ Hh Ho).
  rewrite (Handle_spec s h hv o rec Hh Ho).
  rewrite (proj1 (activeLogger_sink hv o)).
  split.
  - intros H. injection H as H.
    assert (Hen : (Level_int (zerologLevel (slog.RecLevel rec))
                   >=? Level_int (level (activeLogger hv o)))%Z = true).
    { unfold activeLogger. destruct (OptLevel o) as [m|]; [|exact H].
      cbn [Logger_Level level].
      pose proof (zerologLevel_monotone m (slog.RecLevel rec)). lia. }
    rewrite Hen. eexists. reflexivity.
  - intros Hn H. injection H as H. unfold activeLogger. rewrite Hn in *.
    unfold GetLevel in H. rewrite H. now rewrite store_eta.
Qed.

(** X11.  With an explicit minimum [m], the level of the bound logger plays
    no part in [Handle]: a record is emitted exactly when the ladder maps
    its level at or above the level it maps [m] to.  The records emitted
    though [Enabled] rejects them are exactly those below [m] that the
    ladder maps to the same back-end level as [m]. *)
Theorem explicit_minimum_overrides_logger (s : St) (h : ptr)
        (hv : SlogHandler) (o : SlogHandlerOptions) (rec : slog.Record_)
        (m : slog.Level) :
  nth_error (handlers s) h = Some hv ->
  nth_error (options s) (opts hv) = Some o ->
  OptLevel o = Some m ->
  exists emitted,
    Handle h rec s
    = Some (None, mkStore (handlers s) (options s) (output s ++ emitted))
    /\ (emitted <> []
        <-> Level_int (zerologLevel m)
            <= Level_int (zerologLevel (slog.RecLevel rec)))
    /\ (emitted <> [] /\ Enabled h (slog.RecLevel rec) s = Some (false, s)
        <-> slog.RecLevel rec < m
            /\ zerologLevel (slog.RecLevel rec) = zerologLevel m).
Proof.
  intros Hh Ho Hm. eexists.
  split; [apply (Handle_spec s h hv o rec Hh Ho)|].
  rewrite (Enabled_spec s h hv o _ Hh Ho).
  unfold activeLogger. rewrite Hm. cbn [Logger_Level level].
  pose proof (zerologLevel_monotone (slog.RecLevel rec) m) as Hmono.
  destruct (Z.geb_spec (Level_int (zerologLevel (slog.RecLevel rec)))
                       (Level_int (zerologLevel m))) as [Hge|Hlt].
  - split; [split; [intros _; lia | intros _; discriminate]|].
    split.
    + intros [_ H]. injection H as H.
      assert (Hl : slog.RecLevel rec < m) by lia.
      split; [exact Hl|]. apply Level_int_injective. lia.
    + intros [Hl _]. split; [discriminate|].
      f_equal. f_equal. lia.
  - split; [split; [intros H; now contradiction H | intros H; lia]|].
    split.
    + intros [H _]. now contradiction H.
    + intros [_ He]. rewrite He in Hlt. lia.
Qed.

End Emission.

Lemma Enabled_implies_emitted_witness :
  exists body,
    Handle (G := G0) 0%nat rec_warn s_default
    = Some (None,
            mkStore (handlers s_default) (options s_default)
                    [(0%nat, mkEntry WarnLevel body)]).
Proof.
  exact (proj1 (Enabled_implies_emitted (G := G0) s_default 0%nat _ _
                                        rec_warn eq_refl eq_refl)
               eq_refl).
Defined.

Lemma explicit_minimum_overrides_logger_witness :
  exists emitted,
    Handle (G := G0) 0%nat rec_warn s_explicit
    = Some (None,
            mkStore (handlers s_explicit) (options s_explicit) emitted)
    /\ (emitted <> []
        <-> Level_int (zerologLevel (slog.LevelWarn + 1))
            <= Level_int (zerologLevel slog.LevelWarn))
    /\ (emitted <> []
        /\ Enabled 0%nat slog.LevelWarn s_explicit = Some (false, s_explicit)
        <-> slog.LevelWarn < slog.LevelWarn + 1
            /\ zerologLevel slog.LevelWarn
               = zerologLevel (slog.LevelWarn + 1)).
Proof.
  exact (explicit_minimum_overrides_logger (G := G0) s_explicit 0%nat _ _
                                           rec_warn (slog.LevelWarn + 1)
                                           eq_refl eq_refl eq_refl).
Defined.

(** ** The shape of an emitted record *)

Lemma iter_closeOne_shift (n : nat) (b : Builder) :
  Nat.iter (S n) closeOne b = Nat.iter n closeOne (closeOne b).
Proof.
  induction n as [|n IH]; [reflexivity|].
  change (Nat.iter (S (S n)) closeOne b)
    with (closeOne (Nat.iter (S n) closeOne b)).
  rewrite IH. reflexivity.
Qed.

(** Closing all the groups of an accumulator, after [extra] was written into
    the innermost one. *)
Lemma closeGroup_all_nest (stack : list (string * list Field)) :
  forall (t extra : list Field),
    Builder_closeGroup (writes (mkBuilder t stack) extra) (-1)
    = mkBuilder (t ++ nest extra stack) [].
Proof.
  unfold Builder_closeGroup. rewrite Z.eqb_refl.
  induction stack as [|[g fs] outer IH]; intros t extra.
  - rewrite writes_top. reflexivity.
  - rewrite writes_in_group. cbn [open List.length nest].
    rewrite iter_closeOne_shift.
    change (closeOne (mkBuilder t ((g, fs ++ extra) :: outer)))
      with (writes (mkBuilder t outer) [(g, FObject (fs ++ extra))]).
    specialize (IH t [(g, FObject (fs ++ extra))]).
    rewrite <- IH. f_equal.
    destruct outer as [|[g' fs'] outer']; reflexivity.
Qed.

Lemma bind_WithAttrs {A : Type} (s : St) (h : ptr) (hv : SlogHandler)
      (a : list slog.Attr) (k : ptr -> Go A) :
  nth_error (handlers s) h = Some hv ->
  bind (WithAttrs h a) k s
  = k (List.length (handlers s))
      (mkStore (handlers s
                ++ [mkHandler (opts hv)
                      (mkLogger (w (logger hv)) (level (logger hv))
                                (writes (context (logger hv)) (fieldsOf a)))])
               (options s) (output s)).
Proof. intros Hh. unfold bind. now rewrite (WithAttrs_spec s h hv a Hh). Qed.


Section Shape.
Context {G : Globals}.

(** The accumulator [Handle] emits, field by field. *)
Lemma handledBody_nest (lg : Logger) (o : SlogHandlerOptions)
      (rec : slog.Record_) :
  handledBody lg o rec
  = mkBuilder
      (top (context lg)
       ++ nest (fieldsOf (slog.attrs rec)
                ++ (if AddSource o && (slog.PC rec >? 0)%Z
                    then [(CallerFieldName,
                           FStr (Sprintf_s_d
                                   (fst (CallersFrame (slog.PC rec)))
                                   (snd (CallersFrame (slog.PC rec)))))]
                    else []))
               (open (context lg))
       ++ [(TimestampFieldName, FTime (slog.Time rec));
           (MessageFieldName, FStr (slog.Message rec))])
      [].
Proof.
  unfold handledBody, sourceFields.
  destruct (context lg) as [t stack].
  rewrite closeGroup_all_nest. cbn [top open].
  destruct (CallersFrame (slog.PC rec)) as [file line]. cbn [fst snd].
  rewrite <- app_assoc. reflexivity.
Qed.

(** X12.  A record emitted by [Handle] consists of the top-level fields of
    the bound context, then the groups the bound context has open, nested in
    the order they were opened, the innermost holding the attributes of the
    record in their order followed by the call-site field (present when
    [AddSource] is set and the program counter is positive), then the
    timestamp and the message. *)
Theorem Handle_record_shape (s : St) (h : ptr) (hv : SlogHandler)
        (o : SlogHandlerOptions) (rec : slog.Record_) :
  nth_error (handlers s) h = Some hv ->
  nth_error (options s) (opts hv) = Some o ->
  (Level_int (zerologLevel (slog.RecLevel rec))
   >=? Level_int (level (activeLogger hv o)))%Z = true ->
  Handle h rec s
  = Some (None,
          mkStore (handlers s) (options s)
            (output s
             ++ [(w (logger hv),
                  mkEntry (zerologLevel (slog.RecLevel rec))
                    (mkBuilder
                       (top (context (logger hv))
                        ++ nest (fieldsOf (slog.attrs rec)
                                 ++ (if AddSource o && (slog.PC rec >? 0)%Z
                                     then
                                       [(CallerFieldName,
                                         FStr (Sprintf_s_d
                                                 (fst (CallersFrame
                                                         (slog.PC rec)))
                                                 (snd (CallersFrame
                                                         (slog.PC rec)))))]
                                     else []))
                                (open (context (logger hv)))
                        ++ [(TimestampFieldName, FTime (slog.Time rec));
                            (MessageFieldName, FStr (slog.Message rec))])
                       []))])).
Proof.
  intros Hh Ho Hen. rewrite (Handle_spec s h hv o rec Hh Ho), Hen.
  destruct (activeLogger_sink hv o) as [Hw Hc].
  rewrite Hw, handledBody_nest, Hc. reflexivity.
Qed.


(** X14.  Without a program counter ([PC] not positive), [AddSource] has no
    effect: what [Handle] emits is what it emits with the option unset. *)
Theorem AddSource_needs_program_counter (s : St) (h : ptr)
        (hv : SlogHandler) (o : SlogHandlerOptions) (rec : slog.Record_) :
  nth_error (handlers s) h = Some hv ->
  nth_error (options s) (opts hv) = Some o ->
  slog.PC rec <= 0 ->
  emittedBy s (Handle h rec s)
  = emittedBy (setOptions (opts hv) (mkOptions false (OptLevel o)) s)
              (Handle h rec
                      (setOptions (opts hv) (mkOptions false (OptLevel o)) s)).
Proof.
  intros Hh Ho Hpc.
  rewrite (Handle_spec s h hv o rec Hh Ho).
  rewrite (Handle_spec (setOptions _ _ s) h hv
                       (mkOptions false (OptLevel o)) rec Hh
                       (assign_same _ _ _ (nth_error_valid _ _ _ Ho))).
  unfold emittedBy, handledBody, sourceFields, activeLogger.
  cbn [setOptions handlers options output OptLevel AddSource andb].
  replace (slog.PC rec >? 0)%Z with false by lia.
  rewrite andb_false_r. reflexivity.
Qed.

End Shape.

Lemma Handle_record_shape_witness :
  Handle (G := G0) 0%nat rec_warn s_grouped
  = Some (None,
          mkStore (handlers s_grouped) (options s_grouped)
                  [(0%nat,
                    mkEntry WarnLevel
                            (mkBuilder
                               [("attr", FStr "the attr");
                                ("testgroup", FObject [("n", FInt64 12)]);
                                ("time", FTime 1700000000);
                                ("message", FStr "foobar")]
                               []))]).
Proof.
  exact (Handle_record_shape (G := G0) s_grouped 0%nat _ _ rec_warn
                             eq_refl eq_refl eq_refl).
Defined.


Lemma AddSource_needs_program_counter_witness :
  emittedBy s_source (Handle (G := G0) 0%nat rec_warn s_source)
  = emittedBy (setOptions 0%nat (mkOptions false None) s_source)
              (Handle (G := G0) 0%nat rec_warn
                      (setOptions 0%nat (mkOptions false None) s_source)).
Proof.
  apply (AddSource_needs_program_counter (G := G0) s_source 0%nat _ _
                                         rec_warn eq_refl eq_refl).
  cbn. lia.
Defined.

(** ** Composition of derivations *)

(** X15.  Binding attributes in two steps is binding their concatenation in
    one: the handlers obtained have the same options and the same logger.
    Binding no attribute yields a new handler equal to the receiver. *)
Theorem WithAttrs_composes (s : St) (h : ptr) (hv : SlogHandler)
        (a b : list slog.Attr) :
  nth_error (handlers s) h = Some hv ->
  exists s1 s2 s0,
    WithAttrs h (a ++ b) s = Some (List.length (handlers s), s1)
    /\ (h1 <- WithAttrs h a ;; WithAttrs h1 b) s
       = Some (S (List.length (handlers s)), s2)
    /\ nth_error (handlers s2) (S (List.length (handlers s)))
       = nth_error (handlers s1) (List.length (handlers s))
    /\ WithAttrs h [] s = Some (List.length (handlers s), s0)
    /\ nth_error (handlers s0) (List.length (handlers s)) = Some hv.
Proof.
  intros Hh. do 3 eexists.
  split; [apply (WithAttrs_spec s h hv (a ++ b) Hh)|].
  split.
  { erewrite bind_WithAttrs by exact Hh.
    erewrite WithAttrs_spec by (cbn [handlers]; apply nth_error_snoc_new).
    cbn [handlers]. rewrite length_app, Nat.add_1_r. reflexivity. }
  cbn [handlers opts logger w level context].
  split.
  { rewrite nth_error_snoc_new.
    replace (S (List.length (handlers s)))
      with (List.length (handlers s ++ [mkHandler (opts hv)
              (mkLogger (w (logger hv)) (level (logger hv))
                        (writes (context (logger hv)) (fieldsOf a)))]))
      by (rewrite length_app; cbn; lia).
    rewrite nth_error_snoc_new, fieldsOf_app, writes_app. reflexivity. }
  split; [apply (WithAttrs_spec s h hv [] Hh)|].
  cbn [handlers]. rewrite nth_error_snoc_new.
  destruct hv as [po [sink lvl ctx]]. reflexivity.
Qed.

Lemma WithAttrs_composes_witness :
  exists s1 s2 s0,
    WithAttrs 0%nat ([slog.mkAttr "a" (slog.BoolValue true)]
                     ++ [slog.mkAttr "b" (slog.BoolValue false)]) s_default
    = Some (1%nat, s1)
    /\ (h1 <- WithAttrs 0%nat [slog.mkAttr "a" (slog.BoolValue true)] ;;
        WithAttrs h1 [slog.mkAttr "b" (slog.BoolValue false)]) s_default
       = Some (2%nat, s2)
    /\ nth_error (handlers s2) 2%nat = nth_error (handlers s1) 1%nat
    /\ WithAttrs 0%nat [] s_default = Some (1%nat, s0)
    /\ nth_error (handlers s0) 1%nat
       = Some (mkHandler 0%nat (mkLogger 0%nat InfoLevel (mkBuilder [] []))).
Proof.
  exact (WithAttrs_composes s_default 0%nat _
                            [slog.mkAttr "a" (slog.BoolValue true)]
                            [slog.mkAttr "b" (slog.BoolValue false)]
                            eq_refl).
Defined.

(** ** What the dispatcher keeps of an event *)

(** X16.  Writing attributes to a nil event leaves it nil.  Writing them to
    an enabled event keeps its level and its sink, and leaves open exactly
    the groups that were open, under the same names: every group an
    attribute opens is closed again. *)
Theorem mapAttrs_keeps_event (a : list slog.Attr) :
  mapAttrs (None : Event) a = None
  /\ forall lvl sink b,
      exists b',
        mapAttrs (Some (mkEvent lvl sink b)) a = Some (mkEvent lvl sink b')
        /\ map fst (open b') = map fst (open b).
Proof.
  split; [apply mapAttrs_nil_event|].
  intros lvl sink b. eexists. split; [apply mapAttrs_event|].
  apply writes_open_names.
Qed.

(** ** What no call ever does *)

Section Growth.
Context {G : Globals}.

Lemma Handle_fails (s : St) (h : ptr) (rec : slog.Record_) :
  (nth_error (handlers s) h = None
   \/ exists hv, nth_error (handlers s) h = Some hv
                 /\ nth_error (options s) (opts hv) = None) ->
  Handle h rec s = None.
Proof.
  unfold Handle, bind, loadHandler, loadOptions.
  intros [H|[hv [H1 H2]]]; [now rewrite H | now rewrite H1, H2].
Qed.

Lemma step_grows (op : Op) (s s' : St) (ans : Answer) :
  step op s = Some (ans, s') ->
  exists hs os out,
    handlers s' = handlers s ++ hs
    /\ options s' = options s ++ os
    /\ output s' = output s ++ out
    /\ (List.length out <= handleCalls [op])%nat.
Proof.
  destruct op as [lg o | h lvl | h rec | h a | h name];
    unfold step, bind, ret.
  - unfold NewSlogHandler, bind, ret, newOptions, loadOptions, newHandler.
    destruct o as [p|]; cbn [handlers options output].
    + destruct (nth_error (options s) p) as [ov|]; [|discriminate].
      intros H. injection H as _ <-. cbn [handlers options output].
      exists [mkHandler (List.length (options s)) lg], [ov], [].
      rewrite app_nil_r. repeat split. cbn. lia.
    + rewrite nth_error_snoc_new. intros H. injection H as _ <-.
      cbn [handlers options output].
      exists [mkHandler
                (List.length (options s ++ [mkOptions false None])) lg],
        [mkOptions false None; mkOptions false None], [].
      rewrite app_nil_r, <- app_assoc. repeat split. cbn. lia.
  - unfold Enabled, bind, ret, loadHandler, loadOptions.
    destruct (nth_error (handlers s) h) as [hv|]; [|discriminate].
    destruct (nth_error (options s) (opts hv)) as [ov|]; [|discriminate].
    intros H. exists [], [], [].
    assert (s' = s) by (destruct (OptLevel ov); congruence). subst s'.
    rewrite !app_nil_r. repeat split. cbn. lia.
  - destruct (nth_error (handlers s) h) as [hv|] eqn:Hh;
      [|rewrite Handle_fails by (left; exact Hh); discriminate].
    destruct (nth_error (options s) (opts hv)) as [ov|] eqn:Ho;
      [|rewrite Handle_fails by (right; eauto); discriminate].
    rewrite (Handle_spec s h hv ov rec Hh Ho).
    intros H. injection H as _ <-. cbn [handlers options output].
    exists [], [].
    destruct (Level_int (zerologLevel (slog.RecLevel rec))
              >=? Level_int (level (activeLogger hv ov)))%Z;
      [exists [(w (activeLogger hv ov),
                mkEntry (zerologLevel (slog.RecLevel rec))
                        (handledBody (activeLogger hv ov) ov rec))]
      |exists []];
      rewrite !app_nil_r; repeat split; cbn; lia.
  - destruct (nth_error (handlers s) h) as [hv|] eqn:Hh.
    + rewrite (WithAttrs_spec s h hv a Hh).
      intros H. injection H as _ <-. cbn [handlers options output].
      eexists _, [], []. split; [reflexivity|].
      rewrite !app_nil_r. repeat split. cbn. lia.
    + unfold WithAttrs, bind, loadHandler. rewrite Hh. discriminate.
  - destruct (nth_error (handlers s) h) as [hv|] eqn:Hh.
    + rewrite (WithGroup_spec s h hv name Hh).
      intros H. injection H as _ <-. cbn [handlers options output].
      eexists _, [], []. split; [reflexivity|].
      rewrite !app_nil_r. repeat split. cbn. lia.
    + unfold WithGroup, bind, loadHandler. rewrite Hh. discriminate.
Qed.

(** X17.  No sequence of constructor, [Enabled], [Handle], [WithAttrs] and
    [WithGroup] calls modifies or removes a handler or an options cell, or
    anything a sink has received: the store only grows, every cell that
    existed holds what it held, each call gives one answer, and the sinks
    receive at most one record for each [Handle] call. *)
Theorem calls_only_extend_store (ops : list Op) (s s' : St)
        (answers : list Answer) :
  run ops s = Some (answers, s') ->
  List.length answers = List.length ops
  /\ exists hs os out,
      handlers s' = handlers s ++ hs
      /\ options s' = options s ++ os
      /\ output s' = output s ++ out
      /\ (List.length out <= handleCalls ops)%nat
      /\ (forall p hv, nth_error (handlers s) p = Some hv ->
                       nth_error (handlers s') p = Some hv)
      /\ (forall p o, nth_error (options s) p = Some o ->
                      nth_error (options s') p = Some o).
Proof.
  intros H.
  assert (Hgrow : List.length answers = List.length ops
                  /\ exists hs os out,
                      handlers s' = handlers s ++ hs
                      /\ options s' = options s ++ os
                      /\ output s' = output s ++ out
                      /\ (List.length out <= handleCalls ops)%nat).
  { revert s s' answers H.
    induction ops as [|op rest IH]; intros s s' answers H.
    - injection H as <- <-. split; [reflexivity|].
      exists [], [], []. rewrite !app_nil_r. repeat split. cbn. lia.
    - cbn [run] in H. unfold bind at 1 in H.
      destruct (step op s) as [[a s1]|] eqn:Hstep; [|discriminate].
      unfold bind at 1 in H.
      destruct (run rest s1) as [[r s2]|] eqn:Hrun; [|discriminate].
      injection H as <- <-.
      destruct (step_grows op s s1 a Hstep)
        as [hs1 [os1 [out1 [Hh1 [Ho1 [Hout1 Hn1]]]]]].
      destruct (IH s1 s2 r Hrun)
        as [Hlen [hs2 [os2 [out2 [Hh2 [Ho2 [Hout2 Hn2]]]]]]].
      split; [cbn; now rewrite Hlen|].
      exists (hs1 ++ hs2), (os1 ++ os2), (out1 ++ out2).
      rewrite Hh2, Ho2, Hout2, Hh1, Ho1, Hout1, <- !app_assoc.
      repeat split.
      rewrite length_app. unfold handleCalls in *. cbn [filter] in *.
      destruct op; cbn [List.length] in *; lia. }
  destruct Hgrow as [Hlen [hs [os [out [Hh [Ho [Hout Hn]]]]]]].
  split; [exact Hlen|]. exists hs, os, out.
  repeat split; try assumption.
  - intros p hv Hp. rewrite Hh, nth_error_app1; [exact Hp|].
    eapply nth_error_valid, Hp.
  - intros p o Hp. rewrite Ho, nth_error_app1; [exact Hp|].
    eapply nth_error_valid, Hp.
Qed.

End Growth.

Lemma calls_only_extend_store_witness :
  List.length [AnsHandler 1%nat; AnsError None] = 2%nat
  /\ exists hs os out,
      handlers s_default
      ++ [mkHandler 0%nat (mkLogger 0%nat InfoLevel (mkBuilder [] [("g", [])]))]
      = handlers s_default ++ hs
      /\ options s_default = options s_default ++ os
      /\ [(0%nat,
           mkEntry WarnLevel
                   (mkBuilder [("g", FObject [("n", FInt64 12)]);
                               ("time", FTime 1700000000);
                               ("message", FStr "foobar")] []))]
         = output s_default ++ out
      /\ (List.length out <= 1)%nat
      /\ (forall p hv,
             nth_error (handlers s_default) p = Some hv ->
             nth_error
               (handlers s_default
                ++ [mkHandler 0%nat
                      (mkLogger 0%nat InfoLevel (mkBuilder [] [("g", [])]))])
               p = Some hv)
      /\ (forall p o,
             nth_error (options s_default) p = Some o ->
             nth_error (options s_default) p = Some o).
Proof.
  exact (calls_only_extend_store
           (G := G0) [OpWithGroup 0%nat "g"; OpHandle 1%nat rec_warn]
           s_default
           (mkStore
              (handlers s_default
               ++ [mkHandler 0%nat
                     (mkLogger 0%nat InfoLevel (mkBuilder [] [("g", [])]))])
              (options s_default)
              [(0%nat,
                mkEntry WarnLevel
                        (mkBuilder [("g", FObject [("n", FInt64 12)]);
                                    ("time", FTime 1700000000);
                                    ("message", FStr "foobar")] []))])
           [AnsHandler 1%nat; AnsError None] eq_refl).
Defined.

(** ** Bound attributes and groups against record attributes *)

Lemma skipn_exact {A : Type} (xs ys : list A) :
  skipn (List.length xs) (xs ++ ys) = ys.
Proof. induction xs as [|x xs IH]; [reflexivity | exact IH]. Qed.

Section Bound.
Context {G : Globals}.

Lemma emittedBy_Handle (s : St) (h : ptr) (hv : SlogHandler)
      (o : SlogHandlerOptions) (rec : slog.Record_) :
  nth_error (handlers s) h = Some hv ->
  nth_error (options s) (opts hv) = Some o ->
  emittedBy s (Handle h rec s)
  = Some (if (Level_int (zerologLevel (slog.RecLevel rec))
              >=? Level_int (level (activeLogger hv o)))%Z
          then [(w (logger hv),
                 mkEntry (zerologLevel (slog.RecLevel rec))
                         (handledBody (activeLogger hv o) o rec))]
          else []).
Proof.
  intros Hh Ho. rewrite (Handle_spec s h hv o rec Hh Ho).
  unfold emittedBy. cbn [output]. rewrite skipn_exact.
  now rewrite (proj1 (activeLogger_sink hv o)).
Qed.

Lemma handledBody_context (lg lg' : Logger) (o : SlogHandlerOptions)
      (rec : slog.Record_) :
  context lg = context lg' -> handledBody lg o rec = handledBody lg' o rec.
Proof. intros H. unfold handledBody. now rewrite H. Qed.

(** X18.  Attributes bound with [WithAttrs] are written as if they came
    first in the record: handling a record with the derived handler emits
    what the receiver emits for the same record with the bound attributes
    put before its own. *)
Theorem bound_attributes_come_first (s s' : St) (h h' : ptr)
        (hv : SlogHandler) (o : SlogHandlerOptions) (a : list slog.Attr)
        (rec : slog.Record_) :
  nth_error (handlers s) h = Some hv ->
  nth_error (options s) (opts hv) = Some o ->
  WithAttrs h a s = Some (h', s') ->
  emittedBy s' (Handle h' rec s')
  = emittedBy s (Handle h
                        (slog.mkRecord (slog.Time rec) (slog.Message rec)
                                       (slog.RecLevel rec) (slog.PC rec)
                                       (a ++ slog.attrs rec))
                        s).
Proof.
  intros Hh Ho H. rewrite (WithAttrs_spec s h hv a Hh) in H.
  injection H as <- <-.
  rewrite (emittedBy_Handle s h hv o _ Hh Ho).
  erewrite emittedBy_Handle;
    [ | cbn [handlers]; apply nth_error_snoc_new | exact Ho].
  rewrite !activeLogger_level.
  cbn [logger opts w level slog.RecLevel].
  destruct (Level_int (zerologLevel (slog.RecLevel rec))
            >=? Level_int match OptLevel o with
                          | Some m => zerologLevel m
                          | None => level (logger hv)
                          end)%Z; [|reflexivity].
  do 3 f_equal. unfold handledBody, sourceFields.
  rewrite !(proj2 (activeLogger_sink _ o)).
  cbn [logger context slog.attrs slog.PC slog.Time slog.Message].
  rewrite fieldsOf_app, <- writes_app, <- app_assoc. reflexivity.
Qed.

(** X19.  A group opened with [WithGroup] wraps the attributes of the
    records: when no call-site field is added, handling a record with the
    derived handler emits what the receiver emits for the same record with
    its attributes put in one group attribute of that name. *)
Theorem opened_group_wraps_record (s s' : St) (h h' : ptr)
        (hv : SlogHandler) (o : SlogHandlerOptions) (name : string)
        (rec : slog.Record_) :
  nth_error (handlers s) h = Some hv ->
  nth_error (options s) (opts hv) = Some o ->
  AddSource o && (slog.PC rec >? 0)%Z = false ->
  WithGroup h name s = Some (h', s') ->
  emittedBy s' (Handle h' rec s')
  = emittedBy s (Handle h
                        (slog.mkRecord
                           (slog.Time rec) (slog.Message rec)
                           (slog.RecLevel rec) (slog.PC rec)
                           [slog.mkAttr name
                                        (slog.GroupValue (slog.attrs rec))])
                        s).
Proof.
  intros Hh Ho Hsrc H. rewrite (WithGroup_spec s h hv name Hh) in H.
  injection H as <- <-.
  rewrite (emittedBy_Handle s h hv o _ Hh Ho).
  erewrite emittedBy_Handle;
    [ | cbn [handlers]; apply nth_error_snoc_new | exact Ho].
  rewrite !activeLogger_level.
  cbn [logger opts w level slog.RecLevel].
  destruct (Level_int (zerologLevel (slog.RecLevel rec))
            >=? Level_int match OptLevel o with
                          | Some m => zerologLevel m
                          | None => level (logger hv)
                          end)%Z; [|reflexivity].
  do 3 f_equal. unfold handledBody, sourceFields.
  rewrite !(proj2 (activeLogger_sink _ o)).
  cbn [logger context slog.attrs slog.PC slog.Time slog.Message].
  rewrite Hsrc, !app_nil_r.
  rewrite fieldsOf_cons, (fieldOf_group _ (slog.attrs rec)) by reflexivity.
  replace (fieldsOf []) with (@nil Field)
    by (unfold fieldsOf; now rewrite mapAttrs_nil).
  cbn [app slog.Key].
  destruct (context (logger hv)) as [t stack].
  unfold Builder_openGroup. cbn [top open].
  rewrite !closeGroup_all_nest. reflexivity.
Qed.

End Bound.

Lemma bound_attributes_come_first_witness :
  emittedBy
    (mkStore (handlers s_default
              ++ [mkHandler 0%nat
                    (mkLogger 0%nat InfoLevel
                              (mkBuilder [("a", FBool true)] []))])
             (options s_default) [])
    (Handle (G := G0) 1%nat rec_warn
            (mkStore (handlers s_default
                      ++ [mkHandler 0%nat
                            (mkLogger 0%nat InfoLevel
                                      (mkBuilder [("a", FBool true)] []))])
                     (options s_default) []))
  = emittedBy s_default
              (Handle (G := G0) 0%nat
                      (slog.mkRecord 1700000000 "foobar" slog.LevelWarn 0
                                     [slog.mkAttr "a" (slog.BoolValue true);
                                      slog.mkAttr "n" (slog.Int64Value 12)])
                      s_default).
Proof.
  exact (bound_attributes_come_first
           (G := G0) s_default _ 0%nat 1%nat _ _
           [slog.mkAttr "a" (slog.BoolValue true)] rec_warn
           eq_refl eq_refl eq_refl).
Defined.

Lemma opened_group_wraps_record_witness :
  emittedBy
    (mkStore (handlers s_default
              ++ [mkHandler 0%nat
                    (mkLogger 0%nat InfoLevel (mkBuilder [] [("g", [])]))])
             (options s_default) [])
    (Handle (G := G0) 1%nat rec_warn
            (mkStore (handlers s_default
                      ++ [mkHandler 0%nat
                            (mkLogger 0%nat InfoLevel
                                      (mkBuilder [] [("g", [])]))])
                     (options s_default) []))
  = emittedBy s_default
              (Handle (G := G0) 0%nat
                      (slog.mkRecord
                         1700000000 "foobar" slog.LevelWarn 0
                         [slog.mkAttr "g"
                            (slog.GroupValue
                               [slog.mkAttr "n" (slog.Int64Value 12)])])
                      s_default).
Proof.
  exact (opened_group_wraps_record
           (G := G0) s_default _ 0%nat 1%nat _ _ "g" rec_warn
           eq_refl eq_refl eq_refl eq_refl).
Defined.
